(** * Orion database utilities: column codecs, default generators, naming
      and the per-event-loop engine and session-factory caches.

    A shallow embedding of [prefect/orion/utilities/database.py] together
    with the properties its specification states about it.

    Conventions.
    - The text of SQL, of UUIDs and of messages is ASCII: a [list ascii],
      with literals written [str "..."].  A class name and the strings of a
      document may hold any Unicode character: they are lists of code
      points, [ustr].
    - A Python exception is a value of [exn]; a call that may raise returns
      a [result].
    - Python object identity (an engine, a session, an event loop, a task)
      is a natural-number address.
    - The two module-level dicts [ENGINES] and [SESSION_FACTORIES] are
      [gmap]s threaded through the functions that read and write them. *)

From Stdlib Require Import ZArith List Ascii String Bool Lia.
From stdpp Require Import gmap strings.
Import ListNotations.

Set Warnings "-register-all".

Local Open Scope Z_scope.

(** ** Python strings, exceptions and results *)

Abbreviation pystr := (list ascii).

Definition str (s : string) : pystr := list_ascii_of_string s.

Inductive exn : Type :=
| ValueError (msg : pystr)
| TypeError (msg : pystr)
| AttributeError (msg : pystr)
| OverflowError (msg : pystr)
| ValidationError (msg : pystr)
| ArgumentError (msg : pystr)
| KeyError (msg : pystr)
| OperationalError (msg : pystr)
| NotImplementedError (msg : pystr).

Inductive result (A : Type) : Type :=
| Ok (a : A)
| Raise (e : exn).

Arguments Ok {A} a.
Arguments Raise {A} e.

Definition bind {A B : Type} (r : result A) (k : A -> result B) : result B :=
  match r with
  | Ok a => k a
  | Raise e => Raise e
  end.

Notation "'try' x <- r 'in' k" := (bind r (fun x => k))
  (at level 10, x name, r at level 100, k at level 200).

(** [dialect.name], as far as the module branches on it. *)
Inductive dialect : Type :=
| postgresql
| sqlite
| other_dialect (name : pystr).

Definition is_postgresql (d : dialect) : bool :=
  match d with postgresql => true | _ => false end.

Definition is_sqlite (d : dialect) : bool :=
  match d with sqlite => true | _ => false end.

(** ** Characters *)

Definition code (c : ascii) : nat := nat_of_ascii c.

(** A Python [str] that may hold any Unicode character: a sequence of code
    points. *)
Abbreviation ustr := (list N).

(** The code points of an ASCII literal. *)
Definition ustr_of (s : string) : ustr :=
  map (fun c => N.of_nat (code c)) (str s).

(** The character class [[A-Z]]. *)
Definition is_upper (c : ascii) : bool :=
  (65 <=? code c)%nat && (code c <=? 90)%nat.

(** Lower-casing within ASCII, one character. *)
Definition lower_char (c : ascii) : ascii :=
  if is_upper c then ascii_of_nat (code c + 32) else c.

(** Lower-casing of ASCII text: SQLite's [lower()], and [str.lower] on the
    ASCII literals it is applied to here. *)
Definition lower (s : pystr) : pystr := map lower_char s.

(** ** Naming convention: [Base.__tablename__] *)

Module Naming.

(** The character class [[A-Z]], on the code points of a class name: the
    26 capitals of ASCII, and no other upper-case letter of Unicode. *)
Definition is_A_Z (c : N) : bool := (65 <=? c)%N && (c <=? 90)%N.

(** [camel_to_snake = re.compile(r"(?<!^)(?=[A-Z])")]: whether the pattern
    matches (the empty string) at position [pos], where [rest] is the input
    from [pos] on.  [(?<!^)] fails exactly at position 0 and [(?=[A-Z])]
    asks for one of A-Z at [pos]. *)
Definition camel_to_snake_match (pos : nat) (rest : ustr) : bool :=
  negb (pos =? 0)%nat &&
  match rest with
  | c :: _ => is_A_Z c
  | [] => false
  end.

(** [Pattern.sub] for a pattern with only empty matches: at each position,
    from left to right and including the end of the string, the replacement
    is emitted where the pattern matches, then the character at that
    position is copied. *)
Fixpoint sub_from (repl : ustr) (pos : nat) (rest : ustr) : ustr :=
  (if camel_to_snake_match pos rest then repl else []) ++
  match rest with
  | [] => []
  | c :: rest' => c :: sub_from repl (S pos) rest'
  end.

Definition camel_to_snake_sub (repl s : ustr) : ustr := sub_from repl 0 s.

Section Tablename.

(** [str.lower]: the lower-casing of a whole string by Unicode's case
    mapping.  It is not a map over the characters (a final sigma is treated
    apart, a character may lower-case to several), and its tables are not
    part of this development, so it is a parameter. *)
Variable str_lower : ustr -> ustr.

(** [camel_to_snake.sub("_", cls.__name__).lower()] *)
Definition __tablename__ (cls_name : ustr) : ustr :=
  str_lower (camel_to_snake_sub (ustr_of "_") cls_name).

End Tablename.

Definition is_ascii (c : N) : bool := (c <? 128)%N.

(** Lower-casing within ASCII: A-Z become a-z. *)
Definition ascii_lower (c : N) : N := if is_A_Z c then (c + 32)%N else c.

(** What is used of [str.lower]: on a string of ASCII characters it is the
    lower-casing within ASCII. *)
Definition lowers_ascii (str_lower : ustr -> ustr) : Prop :=
  forall s, forallb is_ascii s = true -> str_lower s = map ascii_lower s.

(** The insertion in words: an underscore before every one of A-Z that is
    not in first position. *)
Fixpoint underscore_interior (s : ustr) : ustr :=
  match s with
  | [] => []
  | c :: s' =>
      (if is_A_Z c then ustr_of "_" else []) ++ c :: underscore_interior s'
  end.

Definition underscored (name : ustr) : ustr :=
  match name with
  | [] => []
  | c :: s' => c :: underscore_interior s'
  end.

(** The naming rule in the words of the specification, for an ASCII name:
    the first character is only lower-cased; every later character is
    lower-cased and, when it is an upper-case letter, preceded by an
    underscore. *)
Fixpoint snake_interior (s : ustr) : ustr :=
  match s with
  | [] => []
  | c :: s' =>
      (if is_A_Z c then ustr_of "_" else []) ++ ascii_lower c :: snake_interior s'
  end.

Definition table_name_spec (type_name : ustr) : ustr :=
  match type_name with
  | [] => []
  | c :: s' => ascii_lower c :: snake_interior s'
  end.

End Naming.

(** ** [class Timestamp(TypeDecorator)] *)

Module Timestamp.

(** A [tzinfo] object, by what its [utcoffset(dt)] returns for the datetime
    it is attached to: an offset from UTC in seconds, or [None]. *)
Inductive timezone : Type :=
| FixedOffset (seconds : Z)
| NoOffset.

Definition UTC : timezone := FixedOffset 0.

(** [tz.utcoffset(dt)] *)
Definition utcoffset (tz : timezone) : option Z :=
  match tz with
  | FixedOffset s => Some s
  | NoOffset => None
  end.

(** A [datetime.datetime]: the reading of its own clock, in microseconds
    counted from 1970-01-01T00:00:00 on that clock, and its [tzinfo]
    attribute. *)
Record datetime : Type := mk_datetime {
  wall : Z;
  tzinfo : option timezone
}.

(** A [pendulum.DateTime], which always has an offset from UTC. *)
Record DateTime : Type := mk_DateTime {
  dt_wall : Z;
  dt_offset : Z
}.

(** A [pendulum.DateTime] is a [datetime]. *)
Definition as_datetime (p : DateTime) : datetime :=
  {| wall := dt_wall p; tzinfo := Some (FixedOffset (dt_offset p)) |}.

(** [datetime.min] is 0001-01-01T00:00:00 and [datetime.max] is
    9999-12-31T23:59:59.999999. *)
Definition MIN_WALL : Z := -62135596800 * 1000000.
Definition MAX_WALL : Z := 253402300799 * 1000000 + 999999.

Definition representable (w : Z) : bool :=
  (MIN_WALL <=? w) && (w <=? MAX_WALL).

(** [pendulum.instance(dt, tz=UTC)]: the same clock reading in the time
    zone [dt.tzinfo or tz], which pendulum builds from
    [tz.utcoffset(dt).total_seconds()]. *)
Definition instance (dt : datetime) : result DateTime :=
  match tzinfo dt with
  | None => Ok (mk_DateTime (wall dt) 0)
  | Some tz =>
      match utcoffset tz with
      | Some off => Ok (mk_DateTime (wall dt) off)
      | None =>
          Raise (AttributeError
                   (str "'NoneType' object has no attribute 'total_seconds'"))
      end
  end.

(** [pendulum.timezone(name)], by its offset: ["UTC"] in any case of
    letters is UTC; the zones of the time zone database are not modelled. *)
Definition timezone_offset (name : pystr) : result Z :=
  if bool_decide (lower name = str "utc") then Ok 0
  else Raise (NotImplementedError (str "time zone database")).

(** [dt.in_timezone(tz)]: the same point in time read on the clock of
    [tz]; datetime arithmetic raises [OverflowError] when the result leaves
    [datetime.min .. datetime.max]. *)
Definition in_timezone (p : DateTime) (tz : pystr) : result DateTime :=
  try off <- timezone_offset tz in
  let w := dt_wall p - dt_offset p * 1000000 + off * 1000000 in
  if representable w
  then Ok (mk_DateTime w off)
  else Raise (OverflowError (str "date value out of range")).

Definition process_bind_param (value : option datetime) (d : dialect)
  : result (option datetime) :=
  match value with
  | None => Ok None
  | Some value =>
      match tzinfo value with
      | None => Raise (ValueError (str "Timestamps must have a timezone."))
      | Some _ =>
          if is_sqlite d
          then
            try p <- instance value in
            try r <- in_timezone p (str "UTC") in
            Ok (Some (as_datetime r))
          else Ok (Some value)
      end
  end.

Definition process_result_value (value : option datetime) (d : dialect)
  : result (option datetime) :=
  match value with
  | Some value =>
      try p <- instance value in
      try r <- in_timezone p (str "utc") in
      Ok (Some (as_datetime r))
  | None => Ok None
  end.

(** The point in time a datetime denotes, in microseconds since
    1970-01-01T00:00:00 UTC.  A datetime is aware when it has one, and
    naive when its [tzinfo] is [None] or gives no offset. *)
Definition instant (dt : datetime) : option Z :=
  match tzinfo dt with
  | Some tz =>
      match utcoffset tz with
      | Some off => Some (wall dt - off * 1000000)
      | None => None
      end
  | None => None
  end.

End Timestamp.

(** ** Text operations of Python's [str] and of the [uuid] module *)

Definition is_digit (c : ascii) : bool := (48 <=? code c)%nat && (code c <=? 57)%nat.
Definition is_lower_af (c : ascii) : bool := (97 <=? code c)%nat && (code c <=? 102)%nat.
Definition is_upper_af (c : ascii) : bool := (65 <=? code c)%nat && (code c <=? 70)%nat.

(** A lower-case hexadecimal digit, [0-9a-f]. *)
Definition is_lower_hex (c : ascii) : bool := is_digit c || is_lower_af c.

(** [s[a:b]] for [0 <= a <= b]. *)
Definition slice (a b : nat) (s : pystr) : pystr := firstn (b - a) (skipn a s).

Fixpoint is_prefix (p s : pystr) : bool :=
  match p, s with
  | [], _ => true
  | a :: p', b :: s' => Ascii.eqb a b && is_prefix p' s'
  | _ :: _, [] => false
  end.

(** [s.replace(old, new)] for a non-empty [old]: the occurrences of [old]
    are found from left to right and do not overlap.  [skip] counts the
    characters of an occurrence that are still to be passed over. *)
Fixpoint replace_from (old new : pystr) (skip : nat) (s : pystr) : pystr :=
  match s with
  | [] => []
  | c :: s' =>
      match skip with
      | S k => replace_from old new k s'
      | O =>
          if is_prefix old s
          then new ++ replace_from old new (length old - 1) s'
          else c :: replace_from old new 0 s'
      end
  end.

Definition replace (old new s : pystr) : pystr := replace_from old new 0 s.

Definition char_in (chars : pystr) (c : ascii) : bool :=
  existsb (Ascii.eqb c) chars.

Fixpoint lstrip (chars s : pystr) : pystr :=
  match s with
  | [] => []
  | c :: s' => if char_in chars c then lstrip chars s' else s
  end.

Definition rstrip (chars s : pystr) : pystr := rev (lstrip chars (rev s)).

(** [s.strip(chars)] *)
Definition strip (chars s : pystr) : pystr := rstrip chars (lstrip chars s).

(** The digit [d] of ['%x']. *)
Definition hexdigit (d : Z) : ascii :=
  nth (Z.to_nat d) (str "0123456789abcdef") "0"%char.

(** ['%0<width>x' % n] for [0 <= n < 16 ^ width]: the [width] hexadecimal
    digits of [n], most significant first. *)
Fixpoint format_x (width : nat) (n : Z) : pystr :=
  match width with
  | O => []
  | S w => format_x w (n / 16) ++ [hexdigit (n mod 16)]
  end.

Definition hex_value (c : ascii) : option Z :=
  if is_digit c then Some (Z.of_nat (code c) - 48)
  else if is_lower_af c then Some (Z.of_nat (code c) - 87)
  else if is_upper_af c then Some (Z.of_nat (code c) - 55)
  else None.

Fixpoint int16_from (acc : Z) (s : pystr) : option Z :=
  match s with
  | [] => Some acc
  | c :: s' =>
      match hex_value c with
      | Some d => int16_from (acc * 16 + d) s'
      | None => None
      end
  end.

(** [int(s, 16)] on a string of hexadecimal digits.  Python also accepts a
    sign, a [0x] prefix, single underscores between digits and surrounding
    white space; those forms are not modelled and raise here. *)
Definition int16 (s : pystr) : result Z :=
  match s with
  | [] => Raise (ValueError (str "invalid literal for int() with base 16"))
  | _ =>
      match int16_from 0 s with
      | Some n => Ok n
      | None => Raise (ValueError (str "invalid literal for int() with base 16"))
      end
  end.

(** ['%s-%s-%s-%s-%s' % (hex[:8], hex[8:12], hex[12:16], hex[16:20],
    hex[20:])] *)
Definition hyphenate (hex : pystr) : pystr :=
  slice 0 8 hex ++ str "-" ++ slice 8 12 hex ++ str "-" ++
  slice 12 16 hex ++ str "-" ++ slice 16 20 hex ++ str "-" ++ skipn 20 hex.

(** [uuid.UUID.__str__]: [hex = '%032x' % self.int], cut 8-4-4-4-12. *)
Definition uuid_str (int : Z) : pystr :=
  let hex := format_x 32 int in
  hyphenate hex.

(** The characters of the text of a UUID. *)
Definition uuid_char (c : ascii) : Prop := is_lower_hex c = true \/ c = "-"%char.

(** [uuid.UUID(hex)]: the [int] of the new UUID, or [ValueError]. *)
Definition uuid_of_hex (hex : pystr) : result Z :=
  let hex := replace (str "uuid:") [] (replace (str "urn:") [] hex) in
  let hex := replace (str "-") [] (strip (str "{}") hex) in
  if negb (length hex =? 32)%nat
  then Raise (ValueError (str "badly formed hexadecimal UUID string"))
  else
    try int <- int16 hex in
    if (0 <=? int) && (int <? 2 ^ 128)
    then Ok int
    else Raise (ValueError (str "int is out of range (need a 128-bit value)")).

(** The canonical textual layout of a UUID: 36 characters, hyphens at
    offsets 8, 13, 18 and 23, lower-case hexadecimal digits elsewhere. *)
Definition is_hyphen_offset (i : nat) : bool :=
  (i =? 8)%nat || (i =? 13)%nat || (i =? 18)%nat || (i =? 23)%nat.

Fixpoint layout_from (i : nat) (s : pystr) : bool :=
  match s with
  | [] => true
  | c :: s' =>
      (if is_hyphen_offset i then Ascii.eqb c "-" else is_lower_hex c)
      && layout_from (S i) s'
  end.

Definition canonical_uuid_text (s : pystr) : bool :=
  (length s =? 36)%nat && layout_from 0 s.

(** ** [class UUID(TypeDecorator)] *)

Module UUID.

(** What the codec is handed: a [uuid.UUID] (given by its [int]) or a
    [str]. *)
Inductive value : Type :=
| PyUUID (int : Z)
| PyStr (s : pystr).

(** [str(value)] *)
Definition py_str (v : value) : pystr :=
  match v with
  | PyUUID int => uuid_str int
  | PyStr s => s
  end.

Definition is_uuid (v : value) : bool :=
  match v with PyUUID _ => true | PyStr _ => false end.

(** [uuid.UUID(value)] for a [str]; a [uuid.UUID] has no [replace] method. *)
Definition uuid_UUID (v : value) : result value :=
  match v with
  | PyStr s => try int <- uuid_of_hex s in Ok (PyUUID int)
  | PyUUID _ =>
      Raise (AttributeError (str "'UUID' object has no attribute 'replace'"))
  end.

Definition process_bind_param (v : option value) (d : dialect)
  : result (option value) :=
  match v with
  | None => Ok None
  | Some v =>
      if is_postgresql d then Ok (Some (PyStr (py_str v)))
      else if is_uuid v then Ok (Some (PyStr (py_str v)))
      else try u <- uuid_UUID v in Ok (Some (PyStr (py_str u)))
  end.

Definition process_result_value (v : option value) (d : dialect)
  : result (option value) :=
  match v with
  | None => Ok None
  | Some v =>
      if negb (is_uuid v)
      then try u <- uuid_UUID v in Ok (Some u)
      else Ok (Some v)
  end.

End UUID.

(** ** [class Pydantic(TypeDecorator)] *)

Module Pydantic.

(** The Python values a document is made of.  A [str] is a [ustr]; a dict
    is given by its items in insertion order and has [str] keys;
    [PModel cls fields] is an instance of the [pydantic.BaseModel] subclass
    [cls]. *)
Inductive pyobj : Type :=
| PNone
| PBool (b : bool)
| PInt (n : Z)
| PStr (s : ustr)
| PList (items : list pyobj)
| PTuple (items : list pyobj)
| PDict (items : list (ustr * pyobj))
| PModel (cls : ustr) (fields : list (ustr * pyobj)).

(** A JSON text, given by its syntax tree. *)
Inductive json : Type :=
| JNull
| JBool (b : bool)
| JNumber (n : Z)
| JString (s : ustr)
| JArray (elements : list json)
| JObject (members : list (ustr * json)).

(** [json.dumps(value, default=pydantic.json.pydantic_encoder)].  Lists and
    tuples both become arrays.  A [BaseModel] is not serialisable by
    [json] itself: it is handed to [default], which returns [obj.dict()],
    and that dict is serialised in its place. *)
Fixpoint json_dumps (o : pyobj) : json :=
  match o with
  | PNone => JNull
  | PBool b => JBool b
  | PInt n => JNumber n
  | PStr s => JString s
  | PList items => JArray (map json_dumps items)
  | PTuple items => JArray (map json_dumps items)
  | PDict items => JObject (map (fun kv => (fst kv, json_dumps (snd kv))) items)
  | PModel _ fields =>
      JObject (map (fun kv => (fst kv, json_dumps (snd kv))) fields)
  end.

(** [json.loads] *)
Fixpoint json_loads (j : json) : pyobj :=
  match j with
  | JNull => PNone
  | JBool b => PBool b
  | JNumber n => PInt n
  | JString s => PStr s
  | JArray elements => PList (map json_loads elements)
  | JObject members =>
      PDict (map (fun kv => (fst kv, json_loads (snd kv))) members)
  end.

(** A python-native collection of JSON-compatible objects: [None], [bool],
    [int], [str], and lists and [str]-keyed dicts of such. *)
Fixpoint json_native (o : pyobj) : bool :=
  match o with
  | PNone | PBool _ | PInt _ | PStr _ => true
  | PList items => forallb json_native items
  | PDict items => forallb (fun kv => json_native (snd kv)) items
  | PTuple _ | PModel _ _ => false
  end.

(** The type a [Pydantic] column is declared with, given by what
    [pydantic.parse_obj_as] does for it: the validated and hydrated object,
    or a [ValidationError]. *)
Record pydantic_type : Type := mk_pydantic_type {
  validator : pyobj -> result pyobj
}.

Definition parse_obj_as (T : pydantic_type) (obj : pyobj) : result pyobj :=
  validator T obj.

(** [typing.Any]: every object is accepted as it is. *)
Definition Any : pydantic_type := {| validator := fun obj => Ok obj |}.

Section Codec.

(** [self._pydantic_type] *)
Variable _pydantic_type : pydantic_type.

(** The value bound or read is any Python object; [None] is [PNone]. *)
Definition process_bind_param (value : pyobj) (d : dialect) : result pyobj :=
  match value with
  | PNone => Ok PNone
  | _ =>
      try value <- parse_obj_as _pydantic_type value in
      Ok (json_loads (json_dumps value))
  end.

Definition process_result_value (value : pyobj) (d : dialect) : result pyobj :=
  match value with
  | PNone => Ok PNone
  | _ => parse_obj_as _pydantic_type value
  end.

End Codec.

(** [pydantic.StrictInt]: an [int] that is not a [bool], and nothing else. *)
Definition StrictInt : pydantic_type :=
  {| validator := fun obj =>
       match obj with
       | PInt _ => Ok obj
       | _ => Raise (ValidationError (str "value is not a valid integer"))
       end |}.

End Pydantic.

(** ** The engine cache and the session-factory cache *)

Module Cache.

(** Where a call is made from: the event loop [get_event_loop()] returns
    there and the task [current_task()] returns there ([None] when the loop
    is running a plain callback).  Loops and tasks are objects, named by
    their addresses. *)
Record context : Type := mk_context {
  loop : nat;
  task : option nat
}.

Definition get_event_loop (ctx : context) : nat := loop ctx.
Definition current_task (ctx : context) : option nat := task ctx.

(** [prefect.settings.orion.database] *)
Record settings : Type := mk_settings {
  database_connection_url : pystr;
  database_echo : bool
}.

(** A [sessionmaker] and the [async_scoped_session] built on it; the
    registry of the latter maps the value of [scopefunc()] to a session. *)
Record sessionmaker : Type := mk_sessionmaker {
  sm_bind : nat
}.

Record scoped_session : Type := mk_scoped_session {
  session_factory : sessionmaker;
  registry : gmap (option nat) nat
}.

(** The state of the process: the settings, the two module-level dicts, the
    objects on the heap, and the outside world as far as
    [create_async_engine] depends on it ([driver n url echo] is the
    exception the [n]-th call of the process raises, if any). *)
Record world : Type := mk_world {
  the_settings : settings;
  ENGINES : gmap (nat * pystr * bool) nat;
  SESSION_FACTORIES : gmap (nat * nat) nat;
  scoped : gmap nat scoped_session;
  next_addr : nat;
  attempts : nat;
  driver : nat -> pystr -> bool -> option exn
}.

Definition set_ENGINES (m : gmap (nat * pystr * bool) nat) (w : world) : world :=
  mk_world (the_settings w) m (SESSION_FACTORIES w) (scoped w)
           (next_addr w) (attempts w) (driver w).

Definition set_SESSION_FACTORIES (m : gmap (nat * nat) nat) (w : world) : world :=
  mk_world (the_settings w) (ENGINES w) m (scoped w)
           (next_addr w) (attempts w) (driver w).

Definition set_scoped (h : gmap nat scoped_session) (w : world) : world :=
  mk_world (the_settings w) (ENGINES w) (SESSION_FACTORIES w) h
           (next_addr w) (attempts w) (driver w).

Definition set_next_addr (n : nat) (w : world) : world :=
  mk_world (the_settings w) (ENGINES w) (SESSION_FACTORIES w) (scoped w)
           n (attempts w) (driver w).

Definition set_attempts (n : nat) (w : world) : world :=
  mk_world (the_settings w) (ENGINES w) (SESSION_FACTORIES w) (scoped w)
           (next_addr w) n (driver w).

(** Computations that read and write the process state and may raise. *)
Definition M (A : Type) : Type := world -> result A * world.

Definition ret {A : Type} (a : A) : M A := fun w => (Ok a, w).

Definition raise {A : Type} (e : exn) : M A := fun w => (Raise e, w).

Definition bindM {A B : Type} (m : M A) (k : A -> M B) : M B :=
  fun w =>
    match m w with
    | (Ok a, w') => k a w'
    | (Raise e, w') => (Raise e, w')
    end.

Notation "'do' x <- m ; k" := (bindM m (fun x => k))
  (at level 10, x name, m at level 100, k at level 200).
Notation "'do_' m ; k" := (bindM m (fun _ => k))
  (at level 10, m at level 100, k at level 200).

Definition gets {A : Type} (f : world -> A) : M A := fun w => (Ok (f w), w).

Definition modify (f : world -> world) : M unit := fun w => (Ok tt, f w).

(** A new object: its address. *)
Definition alloc : M nat :=
  fun w => (Ok (next_addr w), set_next_addr (S (next_addr w)) w).

(** [create_async_engine(connection_url, echo=echo)]: a new engine, unless
    the call raises (a malformed URL, a missing driver, ...). *)
Definition create_async_engine (connection_url : pystr) (echo : bool) : M nat :=
  fun w =>
    let w' := set_attempts (S (attempts w)) w in
    match driver w (attempts w) connection_url echo with
    | Some e => (Raise e, w')
    | None => alloc w'
    end.

(** [d[key]] *)
Definition subscript {K V : Type} `{Countable K} (d : gmap K V) (key : K)
  : M V :=
  match d !! key with
  | Some v => ret v
  | None => raise (KeyError [])
  end.

Definition get_engine (ctx : context)
    (connection_url : option pystr) (echo_ : option bool) : M nat :=
  do connection_url <-
    match connection_url with
    | None => gets (fun w => database_connection_url (the_settings w))
    | Some u => ret u
    end;
  do echo <-
    match echo_ with
    | None => gets (fun w => database_echo (the_settings w))
    | Some b => ret b
    end;
  let loop := get_event_loop ctx in
  let cache_key := (loop, connection_url, echo) in
  do engines <- gets ENGINES;
  do_ match engines !! cache_key with
      | None =>
          do e <- create_async_engine connection_url echo;
          modify (fun w => set_ENGINES (<[cache_key := e]> (ENGINES w)) w)
      | Some _ => ret tt
      end;
  do engines <- gets ENGINES;
  subscript engines cache_key.

(** [async_scoped_session(session_factory, scopefunc=current_task)]: a new
    object with an empty registry. *)
Definition async_scoped_session (sm : sessionmaker) : M nat :=
  do a <- alloc;
  do_ modify (fun w =>
        set_scoped (<[a := mk_scoped_session sm ∅]> (scoped w)) w);
  ret a.

Definition get_session_factory (ctx : context) (bind : option nat) : M nat :=
  do bind <-
    match bind with
    | None => get_engine ctx None None
    | Some b => ret b
    end;
  let loop := get_event_loop ctx in
  let cache_key := (loop, bind) in
  do factories <- gets SESSION_FACTORIES;
  do_ match factories !! cache_key with
      | None =>
          let session_factory := mk_sessionmaker bind in
          do f <- async_scoped_session session_factory;
          modify (fun w =>
            set_SESSION_FACTORIES (<[cache_key := f]> (SESSION_FACTORIES w)) w)
      | Some _ => ret tt
      end;
  do factories <- gets SESSION_FACTORIES;
  subscript factories cache_key.

(** Calling an [async_scoped_session] without arguments, as SQLAlchemy's
    [ScopedRegistry] does it: the session registered under [scopefunc()],
    which is created by the session factory and registered on first use. *)
Definition call_scoped_session (ctx : context) (f : nat) : M nat :=
  do heap <- gets scoped;
  do obj <- subscript heap f;
  let key := current_task ctx in
  match registry obj !! key with
  | Some sess => ret sess
  | None =>
      do sess <- alloc;
      do_ modify (fun w =>
            set_scoped
              (<[f := mk_scoped_session (session_factory obj)
                        (<[key := sess]> (registry obj))]> (scoped w)) w);
      ret sess
  end.

(** What the process can do to the caches. *)
Inductive step : world -> world -> Prop :=
| step_get_engine ctx url echo w r w' :
    get_engine ctx url echo w = (r, w') -> step w w'
| step_get_session_factory ctx bind w r w' :
    get_session_factory ctx bind w = (r, w') -> step w w'
| step_call_scoped_session ctx f w r w' :
    call_scoped_session ctx f w = (r, w') -> step w w'.

Inductive steps : world -> world -> Prop :=
| steps_refl w : steps w w
| steps_step w1 w2 w3 : steps w1 w2 -> step w2 w3 -> steps w1 w3.

(** At import time both dicts are empty and no scoped session exists. *)
Definition initial (w : world) : Prop :=
  ENGINES w = ∅ /\ SESSION_FACTORIES w = ∅ /\ scoped w = ∅.

Definition reachable (w : world) : Prop :=
  exists w0, initial w0 /\ steps w0 w.

(** The key under which [get_engine] looks: [(loop, connection_url, echo)]
    with the arguments left out taken from the settings. *)
Definition engine_key (ctx : context)
    (connection_url : option pystr) (echo_ : option bool) (w : world)
  : nat * pystr * bool :=
  (get_event_loop ctx,
   default (database_connection_url (the_settings w)) connection_url,
   default (database_echo (the_settings w)) echo_).

(** What holds of the process state however it was reached: cached objects
    were allocated, no object is cached under two keys, every cached
    factory is on the heap, and no session is registered twice. *)
Record wf (w : world) : Prop := mk_wf {
  engines_bound :
    forall k e, ENGINES w !! k = Some e -> (e < next_addr w)%nat;
  engines_inj :
    forall k1 k2 e,
      ENGINES w !! k1 = Some e -> ENGINES w !! k2 = Some e -> k1 = k2;
  factories_inj :
    forall k1 k2 f,
      SESSION_FACTORIES w !! k1 = Some f ->
      SESSION_FACTORIES w !! k2 = Some f -> k1 = k2;
  factories_live :
    forall k f, SESSION_FACTORIES w !! k = Some f -> is_Some (scoped w !! f);
  scoped_bound :
    forall f obj, scoped w !! f = Some obj -> (f < next_addr w)%nat;
  sessions_bound :
    forall f obj t s,
      scoped w !! f = Some obj -> registry obj !! t = Some s ->
      (s < next_addr w)%nat;
  sessions_inj :
    forall f1 obj1 t1 f2 obj2 t2 s,
      scoped w !! f1 = Some obj1 -> registry obj1 !! t1 = Some s ->
      scoped w !! f2 = Some obj2 -> registry obj2 !! t2 = Some s ->
      f1 = f2 /\ t1 = t2
}.

(** A later state keeps what an earlier state had cached and registered. *)
Record extends (w w' : world) : Prop := mk_extends {
  ext_settings : the_settings w' = the_settings w;
  ext_driver : driver w' = driver w;
  ext_engines :
    forall k e, ENGINES w !! k = Some e -> ENGINES w' !! k = Some e;
  ext_factories :
    forall k f,
      SESSION_FACTORIES w !! k = Some f -> SESSION_FACTORIES w' !! k = Some f;
  ext_scoped :
    forall f obj, scoped w !! f = Some obj ->
      exists obj', scoped w' !! f = Some obj' /\
        forall t s, registry obj !! t = Some s -> registry obj' !! t = Some s
}.

End Cache.

(** ** [setup_sqlite], listening once for [engine_connect] *)

Module SetupSqlite.

(** [conn.engine.url]: [get_backend_name()] and [database]. *)
Record URL : Type := mk_URL {
  backend_name : pystr;
  database : option pystr
}.

(** A connection handed to the listener: the connection object, its engine
    and the engine's URL. *)
Record connection : Type := mk_connection {
  conn_addr : nat;
  engine : nat;
  url : URL
}.

(** What the listener does to the outside. *)
Inductive effect : Type :=
| Execute (conn : nat) (statement : pystr)
| Create_all (engine : nat).

Definition pystr_eqb (a b : pystr) : bool := bool_decide (a = b).

(** [conn.engine.url.database in (":memory:", None)] *)
Definition in_memory (u : URL) : bool :=
  match database u with
  | None => true
  | Some db => pystr_eqb db (str ":memory:")
  end.

Definition setup_sqlite (conn : connection) : list effect :=
  if pystr_eqb (backend_name (url conn)) (str "sqlite")
  then
    [Execute (conn_addr conn) (str "PRAGMA foreign_keys=ON")] ++
    (if in_memory (url conn) then [Create_all (engine conn)] else [])
  else [].

(** [@listens_for(sa.engine.Engine, "engine_connect", once=True)]: the
    listener is attached to the class [Engine], so it hears the connections
    of every engine of the process, and [once=True] wraps it so that only
    its first invocation runs the function.  [pending] says whether that
    invocation is still to come. *)
Definition engine_connect (conn : connection) (pending : bool)
  : list effect * bool :=
  if pending then (setup_sqlite conn, false) else ([], false).

(** The effects of the connections a process makes, in order. *)
Fixpoint run_from (pending : bool) (conns : list connection) : list effect :=
  match conns with
  | [] => []
  | c :: rest =>
      let '(effs, pending') := engine_connect c pending in
      effs ++ run_from pending' rest
  end.

Definition run (conns : list connection) : list effect := run_from true conns.

(** A zero-configuration, in-memory SQLite database, as opposed to a store
    that outlives the process. *)
Definition ephemeral (u : URL) : bool :=
  pystr_eqb (backend_name u) (str "sqlite") && in_memory u.

Definition is_create_all (e : effect) : bool :=
  match e with Create_all _ => true | Execute _ _ => false end.

End SetupSqlite.

(** ** [class UUIDDefault(FunctionElement)] and its compilers *)

Module UUIDDefault.

(** The SQL expressions the compilers emit, by their syntax. *)
Inductive sql : Type :=
| Text (s : pystr)
| Int (n : Z)
| Concat (a b : sql)
| Lower (a : sql)
| Hex (a : sql)
| Randomblob (n : sql)
| Substr (x y : sql) (z : option sql)
| Abs (a : sql)
| Random
| Mod (a b : sql)
| Add (a b : sql)
| Gen_random_uuid.

Declare Scope sql_scope.
Delimit Scope sql_scope with sql.
Infix "||" := Concat (at level 50, left associativity) : sql_scope.

(** ["(GEN_RANDOM_UUID())"] *)
Definition visit_custom_uuid_default_for_postgres : sql := Gen_random_uuid.

Definition visit_custom_uuid_default : sql :=
  (Lower (Hex (Randomblob (Int 4)))
   || Text (str "-")
   || Lower (Hex (Randomblob (Int 2)))
   || Text (str "-4")
   || Substr (Lower (Hex (Randomblob (Int 2)))) (Int 2) None
   || Text (str "-")
   || Substr (Text (str "89ab")) (Add (Mod (Abs Random) (Int 4)) (Int 1))
        (Some (Int 1))
   || Substr (Lower (Hex (Randomblob (Int 2)))) (Int 2) None
   || Text (str "-")
   || Lower (Hex (Randomblob (Int 6))))%sql.

(** The operand of [visit_custom_uuid_default] that picks the variant
    digit. *)
Definition variant_expr : sql :=
  Substr (Text (str "89ab")) (Add (Mod (Abs Random) (Int 4)) (Int 1))
    (Some (Int 1)).

(** [@compiles(UUIDDefault, "postgresql")] and [@compiles(UUIDDefault)]. *)
Definition compile (d : dialect) : sql :=
  if is_postgresql d
  then visit_custom_uuid_default_for_postgres
  else visit_custom_uuid_default.

(** *** SQLite's evaluation of such an expression *)

Inductive sqlval : Type :=
| VInt (n : Z)
| VText (s : pystr)
| VBlob (b : list Byte.byte).

(** The random bytes SQLite draws, in the order it draws them, and how many
    have been used. *)
Definition entropy : Type := nat -> Byte.byte.

Fixpoint draw (src : entropy) (pos n : nat) : list Byte.byte :=
  match n with
  | O => []
  | S n' => src pos :: draw src (S pos) n'
  end.

Definition byte_val (b : Byte.byte) : Z := Z.of_N (Byte.to_N b).

Definition HEXDIGIT (d : Z) : ascii :=
  nth (Z.to_nat d) (str "0123456789ABCDEF") "0"%char.

(** [hex(blob)]: two upper-case digits per byte. *)
Definition hex_byte (b : Byte.byte) : pystr :=
  [HEXDIGIT (byte_val b / 16); HEXDIGIT (byte_val b mod 16)].

Definition hex_blob (b : list Byte.byte) : pystr := flat_map hex_byte b.

(** The 64-bit two's-complement integer in eight bytes. *)
Definition int64_of_bytes (bs : list Byte.byte) : Z :=
  let u := fold_left (fun acc b => acc * 256 + byte_val b) bs 0 in
  if u <? 2 ^ 63 then u else u - 2 ^ 64.

Definition MIN_INT64 : Z := - 2 ^ 63.

Definition unsupported {A : Type} : result A :=
  Raise (NotImplementedError (str "operand types outside the model")).

(** Evaluation under a source of random bytes read from position [pos];
    the operands of an operator are evaluated from left to right.
    [randomblob(N)] is a blob of [N] bytes, one byte if [N < 1];
    [random()] is a 64-bit integer; [abs] of the least 64-bit integer is an
    integer overflow; [substr(X, Y)] and [substr(X, Y, Z)] count characters
    from 1.  Operand types and ranges other than those listed raise
    [NotImplementedError] here. *)
Fixpoint eval (e : sql) (src : entropy) (pos : nat) : result (sqlval * nat) :=
  match e with
  | Text s => Ok (VText s, pos)
  | Int n => Ok (VInt n, pos)
  | Concat a b =>
      try ra <- eval a src pos in
      try rb <- eval b src (snd ra) in
      match fst ra, fst rb with
      | VText x, VText y => Ok (VText (x ++ y), snd rb)
      | _, _ => unsupported
      end
  | Lower a =>
      try ra <- eval a src pos in
      match fst ra with
      | VText x => Ok (VText (lower x), snd ra)
      | _ => unsupported
      end
  | Hex a =>
      try ra <- eval a src pos in
      match fst ra with
      | VBlob b => Ok (VText (hex_blob b), snd ra)
      | _ => unsupported
      end
  | Randomblob n =>
      try rn <- eval n src pos in
      match fst rn with
      | VInt n =>
          let len := Nat.max 1 (Z.to_nat n) in
          Ok (VBlob (draw src (snd rn) len), (snd rn + len)%nat)
      | _ => unsupported
      end
  | Substr x y z =>
      try rx <- eval x src pos in
      try ry <- eval y src (snd rx) in
      try rz <-
        match z with
        | None => Ok (None, snd ry)
        | Some z => try r <- eval z src (snd ry) in Ok (Some (fst r), snd r)
        end in
      match fst rx, fst ry, fst rz with
      | VText s, VInt y, None =>
          if 1 <=? y then Ok (VText (skipn (Z.to_nat (y - 1)) s), snd rz)
          else unsupported
      | VText s, VInt y, Some (VInt z) =>
          if (1 <=? y) && (0 <=? z)
          then Ok (VText (firstn (Z.to_nat z) (skipn (Z.to_nat (y - 1)) s)),
                   snd rz)
          else unsupported
      | _, _, _ => unsupported
      end
  | Abs a =>
      try ra <- eval a src pos in
      match fst ra with
      | VInt n =>
          if n =? MIN_INT64
          then Raise (OperationalError (str "integer overflow"))
          else Ok (VInt (Z.abs n), snd ra)
      | _ => unsupported
      end
  | Random =>
      Ok (VInt (int64_of_bytes (draw src pos 8)), (pos + 8)%nat)
  | Mod a b =>
      try ra <- eval a src pos in
      try rb <- eval b src (snd ra) in
      match fst ra, fst rb with
      | VInt x, VInt y =>
          if (0 <=? x) && (0 <? y) then Ok (VInt (x mod y), snd rb)
          else unsupported
      | _, _ => unsupported
      end
  | Add a b =>
      try ra <- eval a src pos in
      try rb <- eval b src (snd ra) in
      match fst ra, fst rb with
      | VInt x, VInt y => Ok (VInt (x + y), snd rb)
      | _, _ => unsupported
      end
  | Gen_random_uuid => unsupported
  end.

(** The text the expression evaluates to, if it does. *)
Definition result_text (e : sql) (src : entropy) : result pystr :=
  try r <- eval e src 0 in
  match fst r with
  | VText s => Ok s
  | _ => unsupported
  end.

(** The integer [random()] returns while [visit_custom_uuid_default] is
    evaluated: it is drawn after the blobs of 4, 2 and 2 bytes. *)
Definition the_random (src : entropy) : Z := int64_of_bytes (draw src 8 8).

(** The layout of a random (version 4) UUID in text: canonical, with the
    version digit 4 at offset 14 and the variant digit 8, 9, a or b at
    offset 19. *)
Definition uuid4_text (s : pystr) : bool :=
  canonical_uuid_text s
  && Ascii.eqb (nth 14 s "0"%char) "4"
  && char_in (str "89ab") (nth 19 s "0"%char).

End UUIDDefault.

(** ** Concrete inputs used below *)

Module Examples.

(** The class name "FlowÉtat": F l o w É t a t, with É = U+00C9. *)
Definition flow_etat : ustr :=
  [70; 108; 111; 119; 201; 116; 97; 116]%N.

(** 2021-06-01T12:00:00+02:00, and the same clock reading without a zone. *)
Definition noon_cest : Timestamp.datetime :=
  Timestamp.mk_datetime (1622548800 * 1000000)
    (Some (Timestamp.FixedOffset 7200)).

Definition noon_naive : Timestamp.datetime :=
  Timestamp.mk_datetime (1622548800 * 1000000) None.

(** The same clock reading with a [tzinfo] whose [utcoffset()] is [None]. *)
Definition noon_no_offset : Timestamp.datetime :=
  Timestamp.mk_datetime (1622548800 * 1000000) (Some Timestamp.NoOffset).

(** 0001-01-01T00:00:00+02:00: [datetime.min] with an offset of two
    hours. *)
Definition min_plus_two : Timestamp.datetime :=
  Timestamp.mk_datetime Timestamp.MIN_WALL (Some (Timestamp.FixedOffset 7200)).

(** [{"name": "my-flow", "tags": ["a", "b"], "version": 1,
     "archived": False, "parent": None}] *)
Definition flow_document : Pydantic.pyobj :=
  Pydantic.PDict
    [(ustr_of "name", Pydantic.PStr (ustr_of "my-flow"));
     (ustr_of "tags", Pydantic.PList [Pydantic.PStr (ustr_of "a");
                                      Pydantic.PStr (ustr_of "b")]);
     (ustr_of "version", Pydantic.PInt 1);
     (ustr_of "archived", Pydantic.PBool false);
     (ustr_of "parent", Pydantic.PNone)].

(** A process that has just imported the module, where every
    [create_async_engine] succeeds. *)
Definition world0 : Cache.world :=
  Cache.mk_world
    (Cache.mk_settings (str "sqlite+aiosqlite:///:memory:") false)
    ∅ ∅ ∅ 0 0 (fun _ _ _ => None).

(** The same, but the first [create_async_engine] of the process raises. *)
Definition flaky_world : Cache.world :=
  Cache.mk_world
    (Cache.mk_settings (str "sqlite+aiosqlite:///:memory:") false)
    ∅ ∅ ∅ 0 0
    (fun n _ _ =>
       if (n =? 0)%nat
       then Some (ArgumentError (str "Could not parse SQLAlchemy URL"))
       else None).

(** Task 10 on loop 1, and task 20 on loop 2. *)
Definition ctx_a : Cache.context := Cache.mk_context 1 (Some 10%nat).
Definition ctx_b : Cache.context := Cache.mk_context 2 (Some 20%nat).

(** Task 11, on loop 1 like task 10. *)
Definition ctx_a2 : Cache.context := Cache.mk_context 1 (Some 11%nat).

(** The state after [get_engine()] was called from [ctx_a] in [world0]. *)
Definition world1 : Cache.world :=
  snd (Cache.get_engine ctx_a None None world0).

(** A source of random bytes. *)
Definition entropy0 : UUIDDefault.entropy :=
  fun n =>
    match Byte.of_N (N.of_nat (n * 37 + 200) mod 256) with
    | Some b => b
    | None => Byte.x00
    end.

(** A connection to an in-memory SQLite database and one to a SQLite
    file. *)
Definition memory_conn : SetupSqlite.connection :=
  SetupSqlite.mk_connection 1 0
    (SetupSqlite.mk_URL (str "sqlite") (Some (str ":memory:"))).

Definition file_conn : SetupSqlite.connection :=
  SetupSqlite.mk_connection 3 2
    (SetupSqlite.mk_URL (str "sqlite") (Some (str "orion.db"))).

End Examples.

(** ** Proof automation *)

Ltac below16 d :=
  let H := fresh in
  assert (H : d = 0 \/ d = 1 \/ d = 2 \/ d = 3 \/ d = 4 \/ d = 5 \/ d = 6 \/
              d = 7 \/ d = 8 \/ d = 9 \/ d = 10 \/ d = 11 \/ d = 12 \/
              d = 13 \/ d = 14 \/ d = 15) by lia;
  repeat (destruct H as [H|H]; [subst d|]); [..|subst d].

Ltac map_cases :=
  repeat match goal with
    | H : <[_ := _]> _ !! _ = Some _ |- _ =>
        apply lookup_insert_Some in H; destruct H as [[? ?]|[? ?]]
    | H : ∅ !! _ = Some _ |- _ =>
        rewrite lookup_empty in H; discriminate H
    end; simplify_eq/=.

Ltac learn pf :=
  let T := type of pf in
  lazymatch goal with
  | _ : T |- _ => fail
  | _ => pose proof pf
  end.

Ltac saturate :=
  repeat match goal with
    | Eb : (forall k e, Cache.ENGINES _ !! k = Some e -> _),
      H : Cache.ENGINES _ !! _ = Some _ |- _ => learn (Eb _ _ H)
    | Fb : (forall k f, Cache.SESSION_FACTORIES _ !! k = Some f -> (_ < _)%nat),
      H : Cache.SESSION_FACTORIES _ !! _ = Some _ |- _ => learn (Fb _ _ H)
    | Sb : (forall f obj, Cache.scoped _ !! f = Some obj -> _),
      H : Cache.scoped _ !! _ = Some _ |- _ => learn (Sb _ _ H)
    | Nb : (forall f obj t s, Cache.scoped _ !! f = Some obj -> _ -> _),
      H1 : Cache.scoped _ !! _ = Some ?obj,
      H2 : Cache.registry ?obj !! _ = Some _ |- _ => learn (Nb _ _ _ _ H1 H2)
    end.

Ltac norm_lengths :=
  repeat match goal with
    | |- context [Nat.max ?a (Z.to_nat ?b)] =>
        let v := eval vm_compute in (Nat.max a (Z.to_nat b)) in
        change (Nat.max a (Z.to_nat b)) with v
    end;
  cbn [Nat.add].

(** * Properties *)

(** ** Characters *)

Lemma lower_char_not_upper (c : ascii) : is_upper (lower_char c) = false.
Proof.
  destruct c as [[] [] [] [] [] [] [] []]; reflexivity.
Qed.

Lemma lower_char_idem (c : ascii) : lower_char (lower_char c) = lower_char c.
Proof.
  unfold lower_char at 1. now rewrite lower_char_not_upper.
Qed.

Lemma underscore_not_upper : is_upper "_" = false.
Proof. reflexivity. Qed.

(** ** Naming convention *)

Lemma sub_from_interior (pos : nat) (s : ustr) :
  Naming.sub_from (ustr_of "_") (S pos) s = Naming.underscore_interior s.
Proof.
  revert pos. induction s as [|c s IH]; intros pos; [reflexivity|].
  cbn [Naming.sub_from Naming.underscore_interior Naming.camel_to_snake_match
       Nat.eqb negb andb].
  now rewrite IH.
Qed.

(** The substitution writes its underscores before the interior A-Z. *)
Lemma camel_to_snake_sub_underscored (name : ustr) :
  Naming.camel_to_snake_sub (ustr_of "_") name = Naming.underscored name.
Proof.
  destruct name as [|c s]; [reflexivity|].
  unfold Naming.camel_to_snake_sub.
  cbn [Naming.sub_from Naming.camel_to_snake_match Nat.eqb negb andb app
       Naming.underscored].
  f_equal. apply (sub_from_interior 0).
Qed.

Lemma underscore_interior_ascii (s : ustr) :
  forallb Naming.is_ascii s = true ->
  forallb Naming.is_ascii (Naming.underscore_interior s) = true.
Proof.
  induction s as [|c s IH]; [reflexivity|].
  cbn [forallb Naming.underscore_interior]. intros H.
  apply andb_true_iff in H as [Hc Hs].
  change (ustr_of "_") with [95%N].
  destruct (Naming.is_A_Z c); cbn [app forallb];
    rewrite Hc, (IH Hs); reflexivity.
Qed.

Lemma map_lower_underscore_interior (s : ustr) :
  map Naming.ascii_lower (Naming.underscore_interior s) = Naming.snake_interior s.
Proof.
  induction s as [|c s IH]; [reflexivity|].
  cbn [Naming.underscore_interior Naming.snake_interior].
  destruct (Naming.is_A_Z c); cbn; now rewrite IH.
Qed.

Lemma ascii_lower_not_A_Z (c : N) :
  Naming.is_A_Z (Naming.ascii_lower c) = false.
Proof.
  unfold Naming.ascii_lower. destruct (Naming.is_A_Z c) eqn:Hc; [|exact Hc].
  unfold Naming.is_A_Z in *. apply andb_true_iff in Hc as [H1 H2].
  apply N.leb_le in H1. apply N.leb_le in H2.
  apply andb_false_iff. right. apply N.leb_gt. lia.
Qed.

Lemma snake_interior_no_A_Z (s : ustr) :
  forallb (fun c => negb (Naming.is_A_Z c)) (Naming.snake_interior s) = true.
Proof.
  induction s as [|c s IH]; [reflexivity|].
  cbn [Naming.snake_interior].
  destruct (Naming.is_A_Z c); cbn; rewrite ascii_lower_not_A_Z, IH; reflexivity.
Qed.

Lemma tablename_ascii (str_lower : ustr -> ustr)
    (cls_name : ustr) :
  Naming.lowers_ascii str_lower ->
  forallb Naming.is_ascii cls_name = true ->
  Naming.__tablename__ str_lower cls_name = Naming.table_name_spec cls_name.
Proof.
  intros Hlower Hascii. unfold Naming.__tablename__.
  rewrite camel_to_snake_sub_underscored.
  destruct cls_name as [|c s]; [now rewrite Hlower|].
  cbn [forallb] in Hascii. apply andb_true_iff in Hascii as [Hc Hs].
  rewrite Hlower.
  - cbn [Naming.underscored map Naming.table_name_spec].
    now rewrite map_lower_underscore_interior.
  - cbn [Naming.underscored forallb].
    now rewrite Hc, underscore_interior_ascii.
Qed.

(** C7, as the code has it.  [table_name] (the [__tablename__] of [Base])
    is a total function on class names: it writes an underscore before
    every one of the capitals A-Z that is not in first position, and
    lower-cases the result with [str.lower].  On a name of ASCII characters
    that is the rule of the specification ([table_name_spec]): the first
    character is only lower-cased, no capital is left, and "TaskRunState"
    and "Flow" become "task_run_state" and "flow". *)
Theorem tablename_snake_case (str_lower : ustr -> ustr) :
  Naming.lowers_ascii str_lower ->
  (forall cls_name,
      Naming.__tablename__ str_lower cls_name
      = str_lower (Naming.underscored cls_name)) /\
  (forall cls_name,
      forallb Naming.is_ascii cls_name = true ->
      Naming.__tablename__ str_lower cls_name
      = Naming.table_name_spec cls_name) /\
  (forall c rest,
      forallb Naming.is_ascii (c :: rest) = true ->
      exists out,
        Naming.__tablename__ str_lower (c :: rest)
        = Naming.ascii_lower c :: out) /\
  (forall cls_name,
      forallb Naming.is_ascii cls_name = true ->
      forallb (fun c => negb (Naming.is_A_Z c))
        (Naming.__tablename__ str_lower cls_name) = true) /\
  Naming.__tablename__ str_lower (ustr_of "TaskRunState")
  = ustr_of "task_run_state" /\
  Naming.__tablename__ str_lower (ustr_of "Flow")
  = ustr_of "flow".
Proof.
  intros Hlower.
  split.
  { intros s. unfold Naming.__tablename__.
    now rewrite camel_to_snake_sub_underscored. }
  split; [intros s Hs; now apply tablename_ascii|].
  split.
  { intros c rest Hs. rewrite (tablename_ascii _ _ Hlower Hs). cbn. eauto. }
  split.
  { intros s Hs. rewrite (tablename_ascii _ _ Hlower Hs).
    destruct s as [|c s]; cbn [Naming.table_name_spec forallb].
    - reflexivity.
    - now rewrite ascii_lower_not_A_Z, snake_interior_no_A_Z. }
  split; (rewrite (tablename_ascii _ _ Hlower); reflexivity).
Qed.

Lemma tablename_snake_case_witness :
  Naming.__tablename__ (map Naming.ascii_lower) (ustr_of "TaskRunState")
  = ustr_of "task_run_state" /\
  Naming.__tablename__ (map Naming.ascii_lower) (ustr_of "Flow")
  = ustr_of "flow".
Proof.
  apply (tablename_snake_case (map Naming.ascii_lower)).
  intros s _. reflexivity.
Defined.

(** C7 as stated fails on the name "FlowÉtat": É (U+00C9) is an upper-case
    letter in interior position, yet the substitution inserts nothing, so
    the table name is the lower-cased name without any underscore. *)
Lemma tablename_counterexample :
  Naming.camel_to_snake_sub (ustr_of "_") Examples.flow_etat
  = Examples.flow_etat /\
  forall str_lower,
    Naming.__tablename__ str_lower Examples.flow_etat
    = str_lower Examples.flow_etat.
Proof.
  split; [reflexivity|]. intros str_lower. reflexivity.
Qed.

(** ** The [Timestamp] codec *)

(** Conversion to UTC of a datetime with an offset. *)
Lemma to_utc_aware (dt : Timestamp.datetime) (off : Z) (name : pystr) :
  Timestamp.tzinfo dt = Some (Timestamp.FixedOffset off) ->
  lower name = str "utc" ->
  (try p <- Timestamp.instance dt in Timestamp.in_timezone p name) =
  if Timestamp.representable (Timestamp.wall dt - off * 1000000)
  then Ok (Timestamp.mk_DateTime (Timestamp.wall dt - off * 1000000) 0)
  else Raise (OverflowError (str "date value out of range")).
Proof.
  intros Htz Hname. unfold Timestamp.instance. rewrite Htz.
  cbn [Timestamp.utcoffset bind].
  unfold Timestamp.in_timezone, Timestamp.timezone_offset.
  rewrite bool_decide_eq_true_2 by exact Hname.
  cbn [bind Timestamp.dt_wall Timestamp.dt_offset].
  replace (Timestamp.wall dt - off * 1000000 + 0 * 1000000)
    with (Timestamp.wall dt - off * 1000000) by lia.
  reflexivity.
Qed.

Lemma bind_assoc_ok {A B C : Type} (r : result A) (f : A -> result B)
    (g : B -> result C) :
  (try a <- r in try b <- f a in g b) = (try b <- (try a <- r in f a) in g b).
Proof. destruct r; reflexivity. Qed.

Lemma sqlite_bind_aware (t : Timestamp.datetime) (off : Z) :
  Timestamp.tzinfo t = Some (Timestamp.FixedOffset off) ->
  Timestamp.process_bind_param (Some t) sqlite =
  if Timestamp.representable (Timestamp.wall t - off * 1000000)
  then Ok (Some (Timestamp.mk_datetime (Timestamp.wall t - off * 1000000)
                   (Some Timestamp.UTC)))
  else Raise (OverflowError (str "date value out of range")).
Proof.
  intros Htz. unfold Timestamp.process_bind_param. rewrite Htz.
  cbn [is_sqlite]. rewrite bind_assoc_ok.
  rewrite (to_utc_aware t off (str "UTC") Htz eq_refl).
  now destruct (Timestamp.representable _).
Qed.

Lemma result_value_aware (t : Timestamp.datetime) (off : Z) (d : dialect) :
  Timestamp.tzinfo t = Some (Timestamp.FixedOffset off) ->
  Timestamp.process_result_value (Some t) d =
  if Timestamp.representable (Timestamp.wall t - off * 1000000)
  then Ok (Some (Timestamp.mk_datetime (Timestamp.wall t - off * 1000000)
                   (Some Timestamp.UTC)))
  else Raise (OverflowError (str "date value out of range")).
Proof.
  intros Htz. unfold Timestamp.process_result_value.
  rewrite bind_assoc_ok.
  rewrite (to_utc_aware t off (str "utc") Htz eq_refl).
  now destruct (Timestamp.representable _).
Qed.

(** C1, as the code has it.  For a datetime whose [tzinfo] gives an offset
    and for every dialect: when its UTC reading lies within
    [datetime.min .. datetime.max], encoding and then decoding what was
    stored gives a datetime in UTC that denotes the same point in time;
    when it does not, [OverflowError] is raised, by the encoding on SQLite
    and by the decoding elsewhere.  Encoding a datetime whose [tzinfo] is
    [None] raises the missing-timezone [ValueError]. *)
Theorem timestamp_roundtrip_utc (t : Timestamp.datetime) (d : dialect) :
  (forall off,
      Timestamp.tzinfo t = Some (Timestamp.FixedOffset off) ->
      Timestamp.representable (Timestamp.wall t - off * 1000000) = true ->
      exists stored r,
        Timestamp.process_bind_param (Some t) d = Ok (Some stored) /\
        Timestamp.process_result_value (Some stored) d = Ok (Some r) /\
        Timestamp.tzinfo r = Some Timestamp.UTC /\
        Timestamp.instant r = Timestamp.instant t) /\
  (forall off,
      Timestamp.tzinfo t = Some (Timestamp.FixedOffset off) ->
      Timestamp.representable (Timestamp.wall t - off * 1000000) = false ->
      if is_sqlite d
      then Timestamp.process_bind_param (Some t) d =
           Raise (OverflowError (str "date value out of range"))
      else Timestamp.process_bind_param (Some t) d = Ok (Some t) /\
           Timestamp.process_result_value (Some t) d =
           Raise (OverflowError (str "date value out of range"))) /\
  (Timestamp.tzinfo t = None ->
   Timestamp.process_bind_param (Some t) d =
   Raise (ValueError (str "Timestamps must have a timezone."))).
Proof.
  split; [|split].
  - intros off Htz Hrep.
    set (u := Timestamp.mk_datetime (Timestamp.wall t - off * 1000000)
                (Some Timestamp.UTC)).
    assert (Hu : Timestamp.process_result_value (Some u) d = Ok (Some u)).
    { rewrite (result_value_aware u 0 d eq_refl).
      cbn [Timestamp.wall u].
      replace (Timestamp.wall t - off * 1000000 - 0 * 1000000)
        with (Timestamp.wall t - off * 1000000) by lia.
      now rewrite Hrep. }
    assert (Hinst : Timestamp.instant u = Timestamp.instant t).
    { unfold Timestamp.instant. rewrite Htz. cbn. f_equal. lia. }
    destruct d as [| |name].
    + exists t, u. split; [unfold Timestamp.process_bind_param; now rewrite Htz|].
      rewrite (result_value_aware t off _ Htz), Hrep. auto.
    + exists u, u. rewrite (sqlite_bind_aware t off Htz), Hrep. auto.
    + exists t, u. split; [unfold Timestamp.process_bind_param; now rewrite Htz|].
      rewrite (result_value_aware t off _ Htz), Hrep. auto.
  - intros off Htz Hrep.
    destruct d as [| |name]; cbn [is_sqlite].
    + split; [unfold Timestamp.process_bind_param; now rewrite Htz|].
      now rewrite (result_value_aware t off _ Htz), Hrep.
    + now rewrite (sqlite_bind_aware t off Htz), Hrep.
    + split; [unfold Timestamp.process_bind_param; now rewrite Htz|].
      now rewrite (result_value_aware t off _ Htz), Hrep.
  - intros Hnaive. unfold Timestamp.process_bind_param. now rewrite Hnaive.
Qed.

Lemma timestamp_roundtrip_utc_witness :
  (exists stored r,
      Timestamp.process_bind_param (Some Examples.noon_cest) sqlite
      = Ok (Some stored) /\
      Timestamp.process_result_value (Some stored) sqlite = Ok (Some r) /\
      Timestamp.tzinfo r = Some Timestamp.UTC /\
      Timestamp.instant r = Timestamp.instant Examples.noon_cest) /\
  (Timestamp.process_bind_param (Some Examples.min_plus_two) postgresql
   = Ok (Some Examples.min_plus_two) /\
   Timestamp.process_result_value (Some Examples.min_plus_two) postgresql
   = Raise (OverflowError (str "date value out of range"))) /\
  Timestamp.process_bind_param (Some Examples.noon_naive) postgresql =
  Raise (ValueError (str "Timestamps must have a timezone.")).
Proof.
  split; [|split].
  - apply (proj1 (timestamp_roundtrip_utc Examples.noon_cest sqlite) 7200);
      reflexivity.
  - apply (proj1 (proj2 (timestamp_roundtrip_utc Examples.min_plus_two
                           postgresql)) 7200); reflexivity.
  - apply (proj2 (proj2 (timestamp_roundtrip_utc Examples.noon_naive
                           postgresql))); reflexivity.
Defined.

(** C1 as stated fails twice.  The aware datetime 0001-01-01T00:00:00+02:00
    ([datetime.min] with an offset of two hours) has no UTC reading within
    [datetime.min .. datetime.max]: on SQLite its encoding raises
    [OverflowError], so no decoding of its encoding exists.  And a datetime
    whose [tzinfo] is an object giving no offset is naive, yet on
    PostgreSQL it is encoded without any error. *)
Lemma timestamp_roundtrip_counterexample :
  ~ (forall (t : Timestamp.datetime) (d : dialect),
        Timestamp.instant t <> None ->
        exists stored r,
          Timestamp.process_bind_param (Some t) d = Ok (Some stored) /\
          Timestamp.process_result_value (Some stored) d = Ok (Some r)) /\
  ~ (forall (t : Timestamp.datetime) (d : dialect),
        Timestamp.instant t = None ->
        Timestamp.process_bind_param (Some t) d =
        Raise (ValueError (str "Timestamps must have a timezone."))).
Proof.
  split.
  - intros H.
    destruct (H Examples.min_plus_two sqlite ltac:(discriminate))
      as (stored & r & Henc & _).
    vm_compute in Henc. discriminate Henc.
  - intros H.
    specialize (H Examples.noon_no_offset postgresql eq_refl).
    vm_compute in H. discriminate H.
Qed.

(** ** Hexadecimal text *)

Lemma hexdigit_lower_hex (d : Z) :
  0 <= d < 16 -> is_lower_hex (hexdigit d) = true.
Proof. intros Hd. below16 d; reflexivity. Qed.

Lemma hex_value_hexdigit (d : Z) :
  0 <= d < 16 -> hex_value (hexdigit d) = Some d.
Proof. intros Hd. below16 d; reflexivity. Qed.

Lemma length_format_x (w : nat) (n : Z) : length (format_x w n) = w.
Proof.
  revert n. induction w as [|w IH]; intros n; [reflexivity|].
  cbn [format_x]. rewrite length_app, IH. cbn. lia.
Qed.

Lemma format_x_lower_hex (w : nat) (n : Z) :
  Forall (fun c => is_lower_hex c = true) (format_x w n).
Proof.
  revert n. induction w as [|w IH]; intros n; cbn [format_x].
  - constructor.
  - apply Forall_app. split; [apply IH|].
    constructor; [|constructor].
    apply hexdigit_lower_hex, Z.mod_pos_bound. lia.
Qed.

Lemma int16_from_app (acc : Z) (a b : pystr) :
  int16_from acc (a ++ b) =
  match int16_from acc a with
  | Some x => int16_from x b
  | None => None
  end.
Proof.
  revert acc. induction a as [|c a IH]; intros acc; [reflexivity|].
  cbn [app int16_from]. destruct (hex_value c); [apply IH|reflexivity].
Qed.

(** Reading back the [w] digits written by [format_x]. *)
Lemma int16_from_format_x (w : nat) (n acc : Z) :
  int16_from acc (format_x w n) =
  Some (acc * 16 ^ Z.of_nat w + n mod 16 ^ Z.of_nat w).
Proof.
  revert n acc. induction w as [|w IH]; intros n acc.
  - cbn [format_x int16_from]. f_equal.
    change (16 ^ Z.of_nat 0) with 1. rewrite Z.mod_1_r. lia.
  - cbn [format_x]. rewrite int16_from_app, IH. cbn [int16_from].
    rewrite hex_value_hexdigit by (apply Z.mod_pos_bound; lia).
    f_equal. rewrite Nat2Z.inj_succ, Z.pow_succ_r by lia.
    rewrite (Z.rem_mul_r n 16 (16 ^ Z.of_nat w)) by lia. lia.
Qed.

Lemma int16_format_x_32 (n : Z) :
  0 <= n < 2 ^ 128 -> int16 (format_x 32 n) = Ok n.
Proof.
  intros Hn. unfold int16.
  pose proof (length_format_x 32 n) as Hlen.
  rewrite int16_from_format_x.
  destruct (format_x 32 n); [discriminate|].
  f_equal. change (16 ^ Z.of_nat 32) with (2 ^ 128).
  rewrite Z.mod_small by assumption. lia.
Qed.

(** ** [str.replace] and [str.strip] where they change nothing *)

Lemma replace_from_absent (a : ascii) (old new s : pystr) :
  Forall (fun c => c <> a) s -> replace_from (a :: old) new 0 s = s.
Proof.
  induction 1 as [|c s Hc _ IH]; [reflexivity|].
  cbn [replace_from is_prefix].
  destruct (Ascii.eqb_spec a c) as [->|_]; [contradiction|].
  cbn [andb]. now rewrite IH.
Qed.

Lemma replace_one_char (a : ascii) (s : pystr) :
  replace [a] [] s = List.filter (fun c => negb (Ascii.eqb a c)) s.
Proof.
  unfold replace. induction s as [|c s IH]; [reflexivity|].
  cbn [replace_from is_prefix List.filter length Nat.sub app].
  rewrite andb_true_r. destruct (Ascii.eqb a c); cbn [negb]; now rewrite IH.
Qed.

Lemma lstrip_absent (chars s : pystr) :
  Forall (fun c => char_in chars c = false) s -> lstrip chars s = s.
Proof.
  destruct 1 as [|c s Hc _]; [reflexivity|]. cbn [lstrip]. now rewrite Hc.
Qed.

Lemma strip_absent (chars s : pystr) :
  Forall (fun c => char_in chars c = false) s -> strip chars s = s.
Proof.
  intros H. unfold strip, rstrip. rewrite (lstrip_absent chars s H).
  rewrite lstrip_absent by now apply Forall_rev.
  apply rev_involutive.
Qed.

Lemma filter_all (p : ascii -> bool) (s : pystr) :
  Forall (fun c => p c = true) s -> List.filter p s = s.
Proof.
  induction 1 as [|c s Hc _ IH]; [reflexivity|].
  cbn [List.filter]. now rewrite Hc, IH.
Qed.

(** ** The text of a UUID *)

Lemma lower_hex_uuid_char (s : pystr) :
  Forall (fun c => is_lower_hex c = true) s -> Forall uuid_char s.
Proof. apply List.Forall_impl. intros c Hc. now left. Qed.

Lemma uuid_char_facts (c : ascii) :
  uuid_char c ->
  c <> "u"%char /\ char_in (str "{}") c = false.
Proof.
  intros [Hc| ->]; [|split; [discriminate|reflexivity]].
  destruct c as [[] [] [] [] [] [] [] []]; try discriminate Hc;
    split; (discriminate || reflexivity).
Qed.

Lemma lower_hex_not_hyphen (c : ascii) :
  is_lower_hex c = true -> negb (Ascii.eqb "-" c) = true.
Proof.
  destruct c as [[] [] [] [] [] [] [] []]; (discriminate || reflexivity).
Qed.

Lemma slice_skipn (a b : nat) (s : pystr) :
  (a <= b)%nat -> slice a b s ++ skipn b s = skipn a s.
Proof.
  intros Hab. unfold slice.
  rewrite <- (firstn_skipn (b - a) (skipn a s)) at 2.
  f_equal. rewrite skipn_skipn. f_equal. lia.
Qed.

Lemma slices_rejoin (hex : pystr) :
  slice 0 8 hex ++ slice 8 12 hex ++ slice 12 16 hex ++ slice 16 20 hex ++
  skipn 20 hex = hex.
Proof.
  rewrite (slice_skipn 16 20), (slice_skipn 12 16), (slice_skipn 8 12),
    (slice_skipn 0 8) by lia.
  reflexivity.
Qed.

Lemma slice_lower_hex (a b : nat) (s : pystr) :
  Forall (fun c => is_lower_hex c = true) s ->
  Forall (fun c => is_lower_hex c = true) (slice a b s).
Proof. intros H. unfold slice. now apply Forall_take, Forall_drop. Qed.

Lemma hyphenate_chars (hex : pystr) :
  Forall (fun c => is_lower_hex c = true) hex -> Forall uuid_char (hyphenate hex).
Proof.
  intros Hhex. unfold hyphenate.
  repeat (apply Forall_app; split);
    try (apply lower_hex_uuid_char;
         (apply slice_lower_hex || apply Forall_drop); assumption);
    (constructor; [now right | constructor]).
Qed.

Lemma hyphens_removed (hex : pystr) :
  Forall (fun c => is_lower_hex c = true) hex ->
  replace (str "-") [] (hyphenate hex) = hex.
Proof.
  intros Hhex.
  unfold hyphenate. change (str "-") with ["-"%char].
  rewrite replace_one_char. repeat rewrite List.filter_app.
  change (List.filter (fun c => negb (Ascii.eqb "-" c)) ["-"%char])
    with (@nil ascii).
  repeat rewrite filter_all;
    try (eapply List.Forall_impl;
         [intros c Hc; apply lower_hex_not_hyphen, Hc|];
         (apply slice_lower_hex || apply Forall_drop); assumption).
  cbn [app]. apply slices_rejoin.
Qed.

Lemma hyphenate_parses (hex : pystr) (n : Z) :
  Forall (fun c => is_lower_hex c = true) hex ->
  length hex = 32%nat ->
  int16 hex = Ok n -> 0 <= n < 2 ^ 128 ->
  uuid_of_hex (hyphenate hex) = Ok n.
Proof.
  intros Hhex Hlen Hn Hrange. unfold uuid_of_hex.
  pose proof (hyphenate_chars hex Hhex) as Hchars.
  assert (Hu : Forall (fun c => c <> "u"%char) (hyphenate hex)).
  { eapply List.Forall_impl; [|exact Hchars]. intros c Hc.
    now apply uuid_char_facts. }
  assert (Hb : Forall (fun c => char_in (str "{}") c = false) (hyphenate hex)).
  { eapply List.Forall_impl; [|exact Hchars]. intros c Hc.
    now apply uuid_char_facts. }
  assert (Hurn : replace (str "urn:") [] (hyphenate hex) = hyphenate hex)
    by (apply (replace_from_absent "u" (str "rn:")), Hu).
  assert (Huuid : replace (str "uuid:") [] (hyphenate hex) = hyphenate hex)
    by (apply (replace_from_absent "u" (str "uid:")), Hu).
  rewrite !Hurn, !Huuid.
  rewrite !strip_absent by assumption.
  rewrite !hyphens_removed by assumption.
  rewrite Hlen, Hn. cbn [Nat.eqb negb bind].
  destruct Hrange as [H0 H1].
  apply Z.leb_le in H0. apply Z.ltb_lt in H1. now rewrite H0, H1.
Qed.

Lemma hyphenate_canonical (hex : pystr) :
  Forall (fun c => is_lower_hex c = true) hex ->
  length hex = 32%nat -> canonical_uuid_text (hyphenate hex) = true.
Proof.
  intros Hhex Hlen.
  do 32 (destruct hex as [|? hex]; [discriminate Hlen|]).
  destruct hex; [|discriminate Hlen].
  repeat match goal with
         | H : Forall _ (_ :: _) |- _ =>
             apply Forall_cons in H; destruct H as [? H]
         end.
  cbn. repeat match goal with H : is_lower_hex _ = true |- _ =>
                rewrite H; clear H end.
  reflexivity.
Qed.

Lemma uuid_str_parses (int : Z) :
  0 <= int < 2 ^ 128 -> uuid_of_hex (uuid_str int) = Ok int.
Proof.
  intros Hint. unfold uuid_str.
  apply hyphenate_parses; auto using format_x_lower_hex, length_format_x,
    int16_format_x_32.
Qed.

Lemma uuid_str_canonical (int : Z) : canonical_uuid_text (uuid_str int) = true.
Proof.
  unfold uuid_str.
  apply hyphenate_canonical; auto using format_x_lower_hex, length_format_x.
Qed.

(** C2. For a 128-bit identifier and any dialect, the [UUID] codec stores
    a string from which decoding recovers the identifier, and the stored
    string has the canonical form: 36 characters, lower-case hexadecimal
    digits with hyphens after the 8th, 12th, 16th and 20th digit. *)
Theorem uuid_roundtrip (i : Z) (d : dialect) :
  0 <= i < 2 ^ 128 ->
  exists s,
    UUID.process_bind_param (Some (UUID.PyUUID i)) d = Ok (Some (UUID.PyStr s)) /\
    UUID.process_result_value (Some (UUID.PyStr s)) d = Ok (Some (UUID.PyUUID i)) /\
    canonical_uuid_text s = true /\
    length s = 36%nat.
Proof.
  intros Hi. exists (uuid_str i).
  assert (Henc : UUID.process_bind_param (Some (UUID.PyUUID i)) d
                 = Ok (Some (UUID.PyStr (uuid_str i)))).
  { unfold UUID.process_bind_param. now destruct (is_postgresql d). }
  split; [exact Henc|]. split.
  - unfold UUID.process_result_value, UUID.uuid_UUID. cbn [UUID.is_uuid negb].
    now rewrite uuid_str_parses.
  - pose proof (uuid_str_canonical i) as Hc. split; [exact Hc|].
    unfold canonical_uuid_text in Hc. apply andb_true_iff in Hc.
    now apply Nat.eqb_eq.
Qed.

Lemma uuid_roundtrip_witness :
  exists s,
    UUID.process_bind_param
      (Some (UUID.PyUUID 0x12345678123456781234567812345678)) sqlite
    = Ok (Some (UUID.PyStr s)) /\
    UUID.process_result_value (Some (UUID.PyStr s)) sqlite
    = Ok (Some (UUID.PyUUID 0x12345678123456781234567812345678)) /\
    canonical_uuid_text s = true /\
    length s = 36%nat.
Proof.
  apply (uuid_roundtrip 0x12345678123456781234567812345678 sqlite). lia.
Defined.

(** ** The [Pydantic] codec *)

(** Induction on Python values and on JSON texts, through their lists. *)
Lemma pyobj_induction (P : Pydantic.pyobj -> Prop) :
  P Pydantic.PNone ->
  (forall b, P (Pydantic.PBool b)) ->
  (forall n, P (Pydantic.PInt n)) ->
  (forall s, P (Pydantic.PStr s)) ->
  (forall items, Forall P items -> P (Pydantic.PList items)) ->
  (forall items, Forall P items -> P (Pydantic.PTuple items)) ->
  (forall items, Forall (fun kv => P (snd kv)) items -> P (Pydantic.PDict items)) ->
  (forall cls fields,
      Forall (fun kv => P (snd kv)) fields -> P (Pydantic.PModel cls fields)) ->
  forall o, P o.
Proof.
  intros HNone HBool HInt HStr HList HTuple HDict HModel.
  fix IH 1. intros [ | b | n | s | items | items | items | cls fields].
  - exact HNone.
  - apply HBool.
  - apply HInt.
  - apply HStr.
  - apply HList. induction items as [|x l IHl]; constructor;
      [apply IH | exact IHl].
  - apply HTuple. induction items as [|x l IHl]; constructor;
      [apply IH | exact IHl].
  - apply HDict. induction items as [|[k x] l IHl]; constructor;
      [apply IH | exact IHl].
  - apply HModel. induction fields as [|[k x] l IHl]; constructor;
      [apply IH | exact IHl].
Qed.

Lemma json_induction (P : Pydantic.json -> Prop) :
  P Pydantic.JNull ->
  (forall b, P (Pydantic.JBool b)) ->
  (forall n, P (Pydantic.JNumber n)) ->
  (forall s, P (Pydantic.JString s)) ->
  (forall elements, Forall P elements -> P (Pydantic.JArray elements)) ->
  (forall members,
      Forall (fun kv => P (snd kv)) members -> P (Pydantic.JObject members)) ->
  forall j, P j.
Proof.
  intros HNull HBool HNum HStr HArr HObj.
  fix IH 1. intros [ | b | n | s | elements | members].
  - exact HNull.
  - apply HBool.
  - apply HNum.
  - apply HStr.
  - apply HArr. induction elements as [|x l IHl]; constructor;
      [apply IH | exact IHl].
  - apply HObj. induction members as [|[k x] l IHl]; constructor;
      [apply IH | exact IHl].
Qed.

(** What [json.loads] returns is python-native. *)
Lemma json_loads_native (j : Pydantic.json) :
  Pydantic.json_native (Pydantic.json_loads j) = true.
Proof.
  induction j as [ | b | n | s | elements IH | members IH] using json_induction;
    try reflexivity; cbn [Pydantic.json_loads Pydantic.json_native].
  - induction IH as [|x l Hx _ IHl]; [reflexivity|].
    cbn [map forallb]. now rewrite Hx, IHl.
  - induction IH as [|[k x] l Hx _ IHl]; [reflexivity|].
    cbn [map forallb fst snd] in *. now rewrite Hx, IHl.
Qed.

(** On a python-native value, dumping and loading changes nothing. *)
Lemma json_loads_dumps_native (o : Pydantic.pyobj) :
  Pydantic.json_native o = true ->
  Pydantic.json_loads (Pydantic.json_dumps o) = o.
Proof.
  induction o as [ | b | n | s | items IH | items IH | items IH | cls fields IH]
    using pyobj_induction;
    cbn [Pydantic.json_native Pydantic.json_dumps Pydantic.json_loads];
    intros Hnat; try reflexivity; try discriminate Hnat.
  - f_equal. induction IH as [|x l Hx _ IHl]; [reflexivity|].
    cbn [forallb] in Hnat. apply andb_true_iff in Hnat as [H1 H2].
    cbn [map]. now rewrite Hx, IHl.
  - f_equal. induction IH as [|[k x] l Hx _ IHl]; [reflexivity|].
    cbn [forallb fst snd] in *. apply andb_true_iff in Hnat as [H1 H2].
    cbn [map fst snd]. now rewrite Hx, IHl.
Qed.



(** ** The caches *)

Import Cache.

Lemma get_engine_hit ctx url echo_ w e :
  ENGINES w !! engine_key ctx url echo_ w = Some e ->
  get_engine ctx url echo_ w = (Ok e, w).
Proof.
  intros Hk. unfold engine_key in Hk.
  unfold get_engine, bindM, gets, ret, subscript.
  destruct url, echo_; cbn in *; rewrite Hk; cbn; rewrite Hk; reflexivity.
Qed.

Lemma get_engine_miss ctx url echo_ w :
  ENGINES w !! engine_key ctx url echo_ w = None ->
  get_engine ctx url echo_ w =
  match driver w (attempts w) (engine_key ctx url echo_ w).1.2
                 (engine_key ctx url echo_ w).2 with
  | Some ex => (Raise ex, set_attempts (S (attempts w)) w)
  | None =>
      (Ok (next_addr w),
       set_ENGINES (<[engine_key ctx url echo_ w := next_addr w]> (ENGINES w))
         (set_next_addr (S (next_addr w)) (set_attempts (S (attempts w)) w)))
  end.
Proof.
  intros Hk. unfold engine_key in *.
  unfold get_engine, bindM, gets, ret, subscript, create_async_engine, alloc,
    modify.
  destruct url, echo_; cbn in *; rewrite Hk; cbn;
    destruct (driver w (attempts w) _ _); cbn; try reflexivity;
    rewrite lookup_insert_eq; reflexivity.
Qed.

Lemma get_session_factory_hit ctx b w f :
  SESSION_FACTORIES w !! (loop ctx, b) = Some f ->
  get_session_factory ctx (Some b) w = (Ok f, w).
Proof.
  intros Hk.
  unfold get_session_factory, bindM, gets, ret, subscript, get_event_loop.
  cbn. rewrite Hk. cbn. rewrite Hk. reflexivity.
Qed.

Lemma get_session_factory_miss ctx b w :
  SESSION_FACTORIES w !! (loop ctx, b) = None ->
  get_session_factory ctx (Some b) w =
  (Ok (next_addr w),
   set_SESSION_FACTORIES
     (<[(loop ctx, b) := next_addr w]> (SESSION_FACTORIES w))
     (set_scoped
        (<[next_addr w := mk_scoped_session (mk_sessionmaker b) ∅]> (scoped w))
        (set_next_addr (S (next_addr w)) w))).
Proof.
  intros Hk.
  unfold get_session_factory, bindM, gets, ret, subscript, get_event_loop,
    async_scoped_session, alloc, modify.
  cbn. rewrite Hk. cbn. rewrite lookup_insert_eq. reflexivity.
Qed.

Lemma get_session_factory_default ctx w :
  get_session_factory ctx None w =
  match get_engine ctx None None w with
  | (Ok b, w1) => get_session_factory ctx (Some b) w1
  | (Raise e, w1) => (Raise e, w1)
  end.
Proof.
  unfold get_session_factory, bindM at 1.
  destruct (get_engine ctx None None w) as [[b|e] w1]; reflexivity.
Qed.

Lemma call_scoped_session_absent ctx f w :
  scoped w !! f = None ->
  call_scoped_session ctx f w = (Raise (KeyError []), w).
Proof.
  intros Hf. unfold call_scoped_session, bindM, gets, subscript, raise.
  cbn. rewrite Hf. reflexivity.
Qed.

Lemma call_scoped_session_hit ctx f w obj s :
  scoped w !! f = Some obj -> registry obj !! task ctx = Some s ->
  call_scoped_session ctx f w = (Ok s, w).
Proof.
  intros Hf Hs.
  unfold call_scoped_session, bindM, gets, subscript, ret, current_task.
  cbn. rewrite Hf. cbn. rewrite Hs. reflexivity.
Qed.

Lemma call_scoped_session_miss ctx f w obj :
  scoped w !! f = Some obj -> registry obj !! task ctx = None ->
  call_scoped_session ctx f w =
  (Ok (next_addr w),
   set_scoped
     (<[f := mk_scoped_session (session_factory obj)
               (<[task ctx := next_addr w]> (registry obj))]> (scoped w))
     (set_next_addr (S (next_addr w)) w)).
Proof.
  intros Hf Hs.
  unfold call_scoped_session, bindM, gets, subscript, ret, current_task,
    alloc, modify.
  cbn. rewrite Hf. cbn. rewrite Hs. reflexivity.
Qed.

(** *** The invariant and what each update does to it *)

Lemma initial_wf w : initial w -> wf w.
Proof.
  intros (HE & HF & HS).
  split; intros *; rewrite ?HE, ?HF, ?HS, ?lookup_empty; try discriminate.
Qed.

Lemma extends_refl w : extends w w.
Proof. split; eauto. Qed.

Lemma extends_trans w1 w2 w3 : extends w1 w2 -> extends w2 w3 -> extends w1 w3.
Proof.
  intros [A1 A2 A3 A4 A5] [B1 B2 B3 B4 B5].
  split; try congruence; eauto.
  intros f obj Hf. destruct (A5 f obj Hf) as (obj' & Hf' & Hreg).
  destruct (B5 f obj' Hf') as (obj'' & Hf'' & Hreg'). eauto 6.
Qed.

Lemma wf_failed_attempt w n : wf w -> wf (set_attempts n w).
Proof. intros [? ? ? ? ? ? ?]. split; assumption. Qed.

Lemma extends_failed_attempt w n : extends w (set_attempts n w).
Proof. split; eauto. Qed.

Lemma wf_new_engine w k :
  wf w -> ENGINES w !! k = None ->
  wf (set_ENGINES (<[k := next_addr w]> (ENGINES w))
        (set_next_addr (S (next_addr w)) (set_attempts (S (attempts w)) w))).
Proof.
  intros [Eb Ei Fi Fl Sb Nb Ni] Hk. split; cbn; try assumption.
  - intros k' e H. map_cases; saturate; lia.
  - intros k1 k2 e H1 H2. map_cases; saturate; try lia; eauto.
  - intros f obj H. saturate. lia.
  - intros f obj t s H1 H2. saturate. lia.
Qed.

Lemma extends_new_engine w k :
  ENGINES w !! k = None ->
  extends w
    (set_ENGINES (<[k := next_addr w]> (ENGINES w))
       (set_next_addr (S (next_addr w)) (set_attempts (S (attempts w)) w))).
Proof.
  intros Hk. split; cbn; eauto.
  intros k' e H. rewrite lookup_insert_ne; [exact H|congruence].
Qed.

Lemma wf_new_factory w k sm :
  wf w -> SESSION_FACTORIES w !! k = None ->
  wf (set_SESSION_FACTORIES (<[k := next_addr w]> (SESSION_FACTORIES w))
        (set_scoped (<[next_addr w := mk_scoped_session sm ∅]> (scoped w))
           (set_next_addr (S (next_addr w)) w))).
Proof.
  intros [Eb Ei Fi Fl Sb Nb Ni] Hk.
  assert (Fb : forall k' f, SESSION_FACTORIES w !! k' = Some f ->
                            (f < next_addr w)%nat).
  { intros k' f H. destruct (Fl _ _ H) as [obj Hobj]. eauto. }
  split; cbn; try assumption.
  - intros k' e H. saturate. lia.
  - intros k1 k2 f H1 H2. map_cases; saturate; try lia; eauto.
  - intros k' f H. map_cases.
    + rewrite lookup_insert_eq. eauto.
    + saturate. rewrite lookup_insert_ne by lia. eauto.
  - intros f obj H. map_cases; saturate; lia.
  - intros f obj t s H1 H2. map_cases. saturate. lia.
  - intros f1 obj1 t1 f2 obj2 t2 s H1 H2 H3 H4. map_cases. eauto.
Qed.

Lemma extends_new_factory w k sm :
  wf w -> SESSION_FACTORIES w !! k = None ->
  extends w
    (set_SESSION_FACTORIES (<[k := next_addr w]> (SESSION_FACTORIES w))
       (set_scoped (<[next_addr w := mk_scoped_session sm ∅]> (scoped w))
          (set_next_addr (S (next_addr w)) w))).
Proof.
  intros Hwf Hk. split; cbn; eauto.
  - intros k' f H. rewrite lookup_insert_ne; [exact H|congruence].
  - intros f obj H. exists obj. split; [|auto].
    pose proof (scoped_bound _ Hwf _ _ H).
    rewrite lookup_insert_ne by lia. exact H.
Qed.

Lemma wf_new_session w f obj t :
  wf w -> scoped w !! f = Some obj -> registry obj !! t = None ->
  wf (set_scoped
        (<[f := mk_scoped_session (session_factory obj)
                  (<[t := next_addr w]> (registry obj))]> (scoped w))
        (set_next_addr (S (next_addr w)) w)).
Proof.
  intros [Eb Ei Fi Fl Sb Nb Ni] Hf Ht. split; cbn; try assumption.
  - intros k' e H. saturate. lia.
  - intros k' f' H. destruct (Fl _ _ H) as [obj' Hobj'].
    destruct (decide (f = f')) as [->|Hne].
    + rewrite lookup_insert_eq. eauto.
    + rewrite lookup_insert_ne by exact Hne. eauto.
  - intros f' obj' H. map_cases; saturate; lia.
  - intros f' obj' t' s H1 H2. map_cases; cbn in *; map_cases; saturate; lia.
  - intros f1 obj1 t1 f2 obj2 t2 s H1 H2 H3 H4.
    map_cases; cbn in *; map_cases; saturate; try lia; auto.
    + match goal with
      | A : registry obj !! t1 = Some s, B : registry obj !! t2 = Some s |- _ =>
          destruct (Ni _ _ _ _ _ _ _ Hf A Hf B) as [_ ->]; auto
      end.
    + eapply Ni; eauto.
    + eapply Ni; eauto.
    + eapply Ni; eauto.
Qed.

Lemma extends_new_session w f obj t :
  scoped w !! f = Some obj -> registry obj !! t = None ->
  extends w
    (set_scoped
       (<[f := mk_scoped_session (session_factory obj)
                 (<[t := next_addr w]> (registry obj))]> (scoped w))
       (set_next_addr (S (next_addr w)) w)).
Proof.
  intros Hf Ht. split; cbn; eauto.
  intros f' obj' H. destruct (decide (f = f')) as [->|Hne].
  - rewrite lookup_insert_eq. eexists; split; [reflexivity|].
    cbn. intros t' s Hs. assert (obj' = obj) as -> by congruence.
    rewrite lookup_insert_ne; [exact Hs|congruence].
  - rewrite lookup_insert_ne by exact Hne. eauto.
Qed.

(** *** Every operation keeps the invariant and only adds *)

Lemma get_engine_keeps ctx url echo_ w r w' :
  wf w -> get_engine ctx url echo_ w = (r, w') -> wf w' /\ extends w w'.
Proof.
  intros Hwf Hrun.
  destruct (ENGINES w !! engine_key ctx url echo_ w) as [e|] eqn:Hk.
  - rewrite (get_engine_hit _ _ _ _ _ Hk) in Hrun. injection Hrun as <- <-.
    split; [assumption|apply extends_refl].
  - rewrite (get_engine_miss _ _ _ _ Hk) in Hrun.
    destruct (driver w (attempts w) _ _); injection Hrun as <- <-.
    + split; [now apply wf_failed_attempt|apply extends_failed_attempt].
    + split; [now apply wf_new_engine|now apply extends_new_engine].
Qed.

Lemma get_session_factory_bound_keeps ctx b w r w' :
  wf w -> get_session_factory ctx (Some b) w = (r, w') ->
  wf w' /\ extends w w'.
Proof.
  intros Hwf Hrun.
  destruct (SESSION_FACTORIES w !! (loop ctx, b)) as [f|] eqn:Hk.
  - rewrite (get_session_factory_hit _ _ _ _ Hk) in Hrun.
    injection Hrun as <- <-. split; [assumption|apply extends_refl].
  - rewrite (get_session_factory_miss _ _ _ Hk) in Hrun.
    injection Hrun as <- <-.
    split; [now apply wf_new_factory|now apply extends_new_factory].
Qed.

Lemma get_session_factory_keeps ctx bind w r w' :
  wf w -> get_session_factory ctx bind w = (r, w') -> wf w' /\ extends w w'.
Proof.
  intros Hwf Hrun. destruct bind as [b|].
  - exact (get_session_factory_bound_keeps _ _ _ _ _ Hwf Hrun).
  - rewrite get_session_factory_default in Hrun.
    destruct (get_engine ctx None None w) as [[b|e] w1] eqn:Heng;
      destruct (get_engine_keeps _ _ _ _ _ _ Hwf Heng) as [Hwf1 Hext1].
    + destruct (get_session_factory_bound_keeps _ _ _ _ _ Hwf1 Hrun)
        as [Hwf2 Hext2].
      split; [assumption|eapply extends_trans; eauto].
    + injection Hrun as <- <-. now split.
Qed.

Lemma call_scoped_session_keeps ctx f w r w' :
  wf w -> call_scoped_session ctx f w = (r, w') -> wf w' /\ extends w w'.
Proof.
  intros Hwf Hrun.
  destruct (scoped w !! f) as [obj|] eqn:Hf.
  - destruct (registry obj !! task ctx) as [s|] eqn:Hs.
    + rewrite (call_scoped_session_hit _ _ _ _ _ Hf Hs) in Hrun.
      injection Hrun as <- <-. split; [assumption|apply extends_refl].
    + rewrite (call_scoped_session_miss _ _ _ _ Hf Hs) in Hrun.
      injection Hrun as <- <-.
      split; [now apply wf_new_session|now apply extends_new_session].
  - rewrite (call_scoped_session_absent _ _ _ Hf) in Hrun.
    injection Hrun as <- <-. split; [assumption|apply extends_refl].
Qed.

Lemma step_keeps w w' : wf w -> step w w' -> wf w' /\ extends w w'.
Proof.
  intros Hwf Hstep.
  inversion Hstep as [ctx url echo_ w0 r w0' H|ctx bind w0 r w0' H
                     |ctx f w0 r w0' H]; subst.
  - exact (get_engine_keeps _ _ _ _ _ _ Hwf H).
  - exact (get_session_factory_keeps _ _ _ _ _ Hwf H).
  - exact (call_scoped_session_keeps _ _ _ _ _ Hwf H).
Qed.

Lemma steps_keeps w w' : wf w -> steps w w' -> wf w' /\ extends w w'.
Proof.
  intros Hwf Hsteps. induction Hsteps as [w|w1 w2 w3 _ IH Hstep].
  - split; [assumption|apply extends_refl].
  - destruct (IH Hwf) as [Hwf2 Hext2].
    destruct (step_keeps _ _ Hwf2 Hstep) as [Hwf3 Hext3].
    split; [assumption|eapply extends_trans; eauto].
Qed.

Lemma reachable_wf w : reachable w -> wf w.
Proof.
  intros (w0 & Hinit & Hsteps).
  now apply (steps_keeps w0 w (initial_wf w0 Hinit)).
Qed.

(** *** What a successful call leaves in the caches *)

Lemma engine_key_settings ctx url echo_ w w' :
  the_settings w' = the_settings w ->
  engine_key ctx url echo_ w' = engine_key ctx url echo_ w.
Proof. intros H. unfold engine_key. now rewrite H. Qed.

Lemma get_engine_cached ctx url echo_ w e w' :
  get_engine ctx url echo_ w = (Ok e, w') ->
  ENGINES w' !! engine_key ctx url echo_ w = Some e.
Proof.
  intros Hrun.
  destruct (ENGINES w !! engine_key ctx url echo_ w) as [e0|] eqn:Hk.
  - rewrite (get_engine_hit _ _ _ _ _ Hk) in Hrun. now injection Hrun as <- <-.
  - rewrite (get_engine_miss _ _ _ _ Hk) in Hrun.
    destruct (driver w (attempts w) _ _); [discriminate Hrun|].
    injection Hrun as <- <-. cbn. apply lookup_insert_eq.
Qed.

Lemma get_session_factory_cached ctx b w f w' :
  get_session_factory ctx (Some b) w = (Ok f, w') ->
  SESSION_FACTORIES w' !! (loop ctx, b) = Some f.
Proof.
  intros Hrun.
  destruct (SESSION_FACTORIES w !! (loop ctx, b)) as [f0|] eqn:Hk.
  - rewrite (get_session_factory_hit _ _ _ _ Hk) in Hrun.
    now injection Hrun as <- <-.
  - rewrite (get_session_factory_miss _ _ _ Hk) in Hrun.
    injection Hrun as <- <-. cbn. apply lookup_insert_eq.
Qed.

Lemma get_session_factory_returns ctx b w :
  exists f w', get_session_factory ctx (Some b) w = (Ok f, w').
Proof.
  destruct (SESSION_FACTORIES w !! (loop ctx, b)) as [f0|] eqn:Hk.
  - rewrite (get_session_factory_hit _ _ _ _ Hk). eauto.
  - rewrite (get_session_factory_miss _ _ _ Hk). eauto.
Qed.

Lemma call_scoped_session_registered ctx f w s w' :
  call_scoped_session ctx f w = (Ok s, w') ->
  exists obj, scoped w' !! f = Some obj /\ registry obj !! task ctx = Some s.
Proof.
  intros Hrun.
  destruct (scoped w !! f) as [obj|] eqn:Hf.
  - destruct (registry obj !! task ctx) as [s0|] eqn:Hs.
    + rewrite (call_scoped_session_hit _ _ _ _ _ Hf Hs) in Hrun.
      injection Hrun as <- <-. eauto.
    + rewrite (call_scoped_session_miss _ _ _ _ Hf Hs) in Hrun.
      injection Hrun as <- <-. cbn. rewrite lookup_insert_eq.
      eexists; split; [reflexivity|]. cbn. apply lookup_insert_eq.
  - rewrite (call_scoped_session_absent _ _ _ Hf) in Hrun. discriminate Hrun.
Qed.

Lemma call_scoped_session_returns ctx f w :
  is_Some (scoped w !! f) ->
  exists s w', call_scoped_session ctx f w = (Ok s, w').
Proof.
  intros [obj Hf].
  destruct (registry obj !! task ctx) as [s0|] eqn:Hs.
  - rewrite (call_scoped_session_hit _ _ _ _ _ Hf Hs). eauto.
  - rewrite (call_scoped_session_miss _ _ _ _ Hf Hs). eauto.
Qed.

(** C4, as the code has it.  The engines are cached per event loop, not
    per task.  In a process state reached by the operations of the module,
    once [get_engine] has returned a handle to a caller, that handle stays
    in [ENGINES] under the key (event loop, connection string, echo) and
    under no other key; every later call with the same arguments from the
    same event loop, whatever the task, returns that very handle and leaves
    the state alone; and a call with the same arguments from another event
    loop returns a different handle. *)
Theorem get_engine_one_handle_per_loop
    (ctx : context) (url : option pystr) (echo_ : option bool)
    (w w1 w2 : world) (e : nat) :
  reachable w ->
  get_engine ctx url echo_ w = (Ok e, w1) ->
  steps w1 w2 ->
  ENGINES w2 !! engine_key ctx url echo_ w = Some e /\
  (forall k, k <> engine_key ctx url echo_ w -> ENGINES w2 !! k <> Some e) /\
  (forall ctx', loop ctx' = loop ctx ->
                get_engine ctx' url echo_ w2 = (Ok e, w2)) /\
  (forall ctx' e' w3,
      loop ctx' <> loop ctx ->
      get_engine ctx' url echo_ w2 = (Ok e', w3) -> e' <> e).
Proof.
  intros Hreach Hrun Hsteps.
  pose proof (reachable_wf w Hreach) as Hwf.
  destruct (get_engine_keeps _ _ _ _ _ _ Hwf Hrun) as [Hwf1 Hext1].
  destruct (steps_keeps _ _ Hwf1 Hsteps) as [Hwf2 Hext2].
  pose proof (get_engine_cached _ _ _ _ _ _ Hrun) as Hc1.
  pose proof (ext_engines _ _ Hext2 _ _ Hc1) as Hc2.
  assert (Hset : the_settings w2 = the_settings w).
  { rewrite (ext_settings _ _ Hext2). apply (ext_settings _ _ Hext1). }
  split; [exact Hc2|]. split; [|split].
  - intros k Hk Hlook. apply Hk.
    exact (engines_inj _ Hwf2 _ _ _ Hlook Hc2).
  - intros ctx' Hloop. apply get_engine_hit.
    rewrite (engine_key_settings _ _ _ _ _ Hset).
    unfold engine_key, get_event_loop in *. now rewrite Hloop.
  - intros ctx' e' w3 Hloop Hrun' ->.
    destruct (get_engine_keeps _ _ _ _ _ _ Hwf2 Hrun') as [Hwf3 Hext3].
    pose proof (get_engine_cached _ _ _ _ _ _ Hrun') as Hc3.
    pose proof (ext_engines _ _ Hext3 _ _ Hc2) as Hc3'.
    pose proof (engines_inj _ Hwf3 _ _ _ Hc3 Hc3') as Hkey.
    unfold engine_key, get_event_loop in Hkey. congruence.
Qed.

(** C6. When the engine is not cached and [create_async_engine] raises,
    [get_engine] raises the same exception and [ENGINES] is left as it was;
    the next call with the same arguments calls [create_async_engine]
    again: it raises what that attempt raises, or returns and caches the
    engine that attempt creates. *)
Theorem get_engine_failure_not_cached
    (ctx : context) (url : option pystr) (echo_ : option bool)
    (w : world) (ex : exn) :
  let key := engine_key ctx url echo_ w in
  ENGINES w !! key = None ->
  driver w (attempts w) key.1.2 key.2 = Some ex ->
  exists w1,
    get_engine ctx url echo_ w = (Raise ex, w1) /\
    ENGINES w1 = ENGINES w /\
    (forall ex',
        driver w (S (attempts w)) key.1.2 key.2 = Some ex' ->
        exists w2, get_engine ctx url echo_ w1 = (Raise ex', w2) /\
                   ENGINES w2 = ENGINES w) /\
    (driver w (S (attempts w)) key.1.2 key.2 = None ->
     exists e w2, get_engine ctx url echo_ w1 = (Ok e, w2) /\
                  ENGINES w2 !! key = Some e).
Proof.
  intros key Hk Hfail.
  exists (set_attempts (S (attempts w)) w).
  assert (Hk1 : ENGINES (set_attempts (S (attempts w)) w)
                !! engine_key ctx url echo_ (set_attempts (S (attempts w)) w)
                = None) by exact Hk.
  assert (Hnext : get_engine ctx url echo_ (set_attempts (S (attempts w)) w) =
                  match driver w (S (attempts w)) key.1.2 key.2 with
                  | Some ex' =>
                      (Raise ex', set_attempts (S (S (attempts w))) w)
                  | None =>
                      (Ok (next_addr w),
                       set_ENGINES (<[key := next_addr w]> (ENGINES w))
                         (set_next_addr (S (next_addr w))
                            (set_attempts (S (S (attempts w))) w)))
                  end).
  { rewrite (get_engine_miss _ _ _ _ Hk1).
    change (engine_key ctx url echo_ (set_attempts (S (attempts w)) w))
      with key.
    change (driver (set_attempts (S (attempts w)) w)) with (driver w).
    change (attempts (set_attempts (S (attempts w)) w)) with (S (attempts w)).
    destruct (driver w (S (attempts w)) key.1.2 key.2); reflexivity. }
  split; [|split; [reflexivity|split]].
  - rewrite (get_engine_miss _ _ _ _ Hk). fold key. now rewrite Hfail.
  - intros ex' Hfail'. rewrite Hnext, Hfail'. eexists. split; reflexivity.
  - intros Hok. rewrite Hnext, Hok. eexists _, _. split; [reflexivity|].
    cbn. apply lookup_insert_eq.
Qed.


(** ** The default of [UUIDDefault] *)

Import UUIDDefault.

Lemma lower_HEXDIGIT_hi (b : Byte.byte) :
  is_lower_hex (lower_char (HEXDIGIT (byte_val b / 16))) = true.
Proof. destruct b; vm_compute; reflexivity. Qed.

Lemma lower_HEXDIGIT_lo (b : Byte.byte) :
  is_lower_hex (lower_char (HEXDIGIT (byte_val b mod 16))) = true.
Proof. destruct b; vm_compute; reflexivity. Qed.

Lemma eval_concat a b src pos x p1 y p2 :
  eval a src pos = Ok (VText x, p1) ->
  eval b src p1 = Ok (VText y, p2) ->
  eval (Concat a b) src pos = Ok (VText (x ++ y), p2).
Proof. intros Ha Hb. cbn [eval]. rewrite Ha. cbn. rewrite Hb. reflexivity. Qed.

Lemma eval_text s src pos : eval (Text s) src pos = Ok (VText s, pos).
Proof. reflexivity. Qed.

Lemma eval_hex_blob n src pos :
  eval (Lower (Hex (Randomblob (Int n)))) src pos =
  Ok (VText (lower (hex_blob (draw src pos (Nat.max 1 (Z.to_nat n))))),
      (pos + Nat.max 1 (Z.to_nat n))%nat).
Proof. reflexivity. Qed.

Lemma eval_substr_tail x src pos s p1 :
  eval x src pos = Ok (VText s, p1) ->
  eval (Substr x (Int 2) None) src pos = Ok (VText (skipn 1 s), p1).
Proof. intros Hx. cbn [eval]. rewrite Hx. reflexivity. Qed.

Lemma eval_variant src pos :
  eval variant_expr src pos =
  let r := int64_of_bytes (draw src pos 8) in
  if r =? MIN_INT64
  then Raise (OperationalError (str "integer overflow"))
  else Ok (VText (firstn 1 (skipn (Z.to_nat (Z.abs r mod 4)) (str "89ab"))),
           (pos + 8)%nat).
Proof.
  unfold variant_expr. cbn [eval bind fst snd].
  cbv zeta. destruct (int64_of_bytes (draw src pos 8) =? MIN_INT64); [reflexivity|].
  cbn [bind fst snd].
  assert (H : (0 <=? Z.abs (int64_of_bytes (draw src pos 8))) = true)
    by (apply Z.leb_le, Z.abs_nonneg).
  rewrite H. change (0 <? 4) with true. cbn [andb bind fst snd].
  pose proof (Z.mod_pos_bound (Z.abs (int64_of_bytes (draw src pos 8))) 4 ltac:(lia)).
  assert (H1 : (1 <=? Z.abs (int64_of_bytes (draw src pos 8)) mod 4 + 1) = true)
    by (apply Z.leb_le; lia).
  rewrite H1. change (0 <=? 1) with true. cbn [andb].
  replace (Z.abs (int64_of_bytes (draw src pos 8)) mod 4 + 1 - 1)
    with (Z.abs (int64_of_bytes (draw src pos 8)) mod 4) by lia.
  reflexivity.
Qed.

Lemma variant_digit (r : Z) :
  0 <= r ->
  firstn 1 (skipn (Z.to_nat (r mod 4)) (str "89ab")) = ["8"%char] \/
  firstn 1 (skipn (Z.to_nat (r mod 4)) (str "89ab")) = ["9"%char] \/
  firstn 1 (skipn (Z.to_nat (r mod 4)) (str "89ab")) = ["a"%char] \/
  firstn 1 (skipn (Z.to_nat (r mod 4)) (str "89ab")) = ["b"%char].
Proof.
  intros Hr. pose proof (Z.mod_pos_bound r 4 ltac:(lia)) as Hm.
  assert (H : r mod 4 = 0 \/ r mod 4 = 1 \/ r mod 4 = 2 \/ r mod 4 = 3) by lia.
  destruct H as [H|[H|[H|H]]]; rewrite H; cbn; auto.
Qed.

Lemma eval_uuid_default src :
  the_random src <> MIN_INT64 ->
  exists s p, eval visit_custom_uuid_default src 0 = Ok (VText s, p) /\
              uuid4_text s = true.
Proof.
  intros Hr. unfold the_random in Hr.
  eexists _, _. split.
  - unfold visit_custom_uuid_default.
    repeat eapply eval_concat.
    all: first [ apply eval_text
               | apply eval_hex_blob
               | apply eval_substr_tail, eval_hex_blob
               | idtac ].
    change (Substr _ _ _) with variant_expr. rewrite eval_variant.
    cbv zeta. norm_lengths.
    apply Z.eqb_neq in Hr. rewrite Hr. reflexivity.
  - norm_lengths.
    destruct (variant_digit (Z.abs (int64_of_bytes (draw src 8 8)))
                (Z.abs_nonneg _)) as [H|[H|[H|H]]]; rewrite H;
      unfold uuid4_text, canonical_uuid_text;
      cbn -[lower_char HEXDIGIT byte_val is_lower_hex];
      rewrite !lower_HEXDIGIT_hi, !lower_HEXDIGIT_lo; reflexivity.
Qed.

Lemma eval_concat_raise_left a b src pos e :
  eval a src pos = Raise e -> eval (Concat a b) src pos = Raise e.
Proof. intros Ha. cbn [eval]. now rewrite Ha. Qed.

Lemma eval_concat_raise_right a b src pos x p1 e :
  eval a src pos = Ok (VText x, p1) ->
  eval b src p1 = Raise e ->
  eval (Concat a b) src pos = Raise e.
Proof. intros Ha Hb. cbn [eval]. rewrite Ha. cbn. now rewrite Hb. Qed.

Lemma eval_uuid_default_overflow src :
  the_random src = MIN_INT64 ->
  eval visit_custom_uuid_default src 0 =
  Raise (OperationalError (str "integer overflow")).
Proof.
  intros Hr. unfold the_random in Hr. unfold visit_custom_uuid_default.
  do 3 apply eval_concat_raise_left.
  eapply eval_concat_raise_right.
  - repeat eapply eval_concat.
    all: first [ apply eval_text
               | apply eval_hex_blob
               | apply eval_substr_tail, eval_hex_blob ].
  - change (Substr _ _ _) with variant_expr. rewrite eval_variant.
    cbv zeta. norm_lengths. rewrite Hr. reflexivity.
Qed.




(** ** [setup_sqlite] *)

Import SetupSqlite.

Lemma run_from_spent (conns : list connection) : run_from false conns = [].
Proof. induction conns as [|c rest IH]; [reflexivity|]. cbn. exact IH. Qed.

Lemma run_first (c : connection) (rest : list connection) :
  run (c :: rest) = setup_sqlite c.
Proof.
  unfold run. cbn [run_from engine_connect]. rewrite run_from_spent.
  apply app_nil_r.
Qed.

(** C8, as the code has it.  When the first connection of the process is
    to SQLite, the listener switches foreign keys on for that connection,
    whether the database is in memory or a file, and creates the tables if
    and only if the database is in memory; later connections cause
    nothing.  Whatever the connections, tables are only ever created on
    the engine of an in-memory SQLite connection, and at most once. *)
Theorem setup_sqlite_first_connection (conns : list connection) :
  (forall c rest,
      conns = c :: rest ->
      backend_name (url c) = str "sqlite" ->
      run conns =
      Execute (conn_addr c) (str "PRAGMA foreign_keys=ON") ::
      (if in_memory (url c) then [Create_all (engine c)] else [])) /\
  (forall e,
      In (Create_all e) (run conns) ->
      exists c, In c conns /\ engine c = e /\ ephemeral (url c) = true) /\
  (length (List.filter is_create_all (run conns)) <= 1)%nat.
Proof.
  split; [|split].
  - intros c rest -> Hsqlite. rewrite run_first. unfold setup_sqlite.
    unfold pystr_eqb. rewrite bool_decide_eq_true_2 by exact Hsqlite.
    reflexivity.
  - intros e Hin. destruct conns as [|c rest]; [destruct Hin|].
    rewrite run_first in Hin. unfold setup_sqlite in Hin.
    destruct (pystr_eqb (backend_name (url c)) (str "sqlite")) eqn:Hb;
      [|destruct Hin].
    destruct (in_memory (url c)) eqn:Hm; cbn in Hin.
    + destruct Hin as [Hin|[Hin|[]]]; [discriminate Hin|].
      injection Hin as <-. exists c.
      split; [now left|]. split; [reflexivity|].
      unfold ephemeral. now rewrite Hb, Hm.
    + destruct Hin as [Hin|[]]. discriminate Hin.
  - destruct conns as [|c rest]; [cbn; lia|].
    rewrite run_first. unfold setup_sqlite.
    destruct (pystr_eqb _ _); [|cbn; lia].
    destruct (in_memory _); cbn; lia.
Qed.

(** C8 as stated fails: a first connection to the SQLite file [orion.db]
    gets [PRAGMA foreign_keys=ON], although that store is not ephemeral. *)
Lemma setup_sqlite_counterexample :
  ~ (forall (conns : list connection) (c : connection) (stmt : pystr),
        In c conns ->
        In (Execute (conn_addr c) stmt) (run conns) ->
        ephemeral (url c) = true).
Proof.
  intros H.
  pose (c := mk_connection 1 0 (mk_URL (str "sqlite") (Some (str "orion.db")))).
  specialize (H [c] c (str "PRAGMA foreign_keys=ON")).
  assert (Hfalse : ephemeral (url c) = false) by (vm_compute; reflexivity).
  rewrite H in Hfalse; [discriminate Hfalse|now left|].
  vm_compute. now left.
Qed.

Lemma setup_sqlite_first_connection_witness :
  run [Examples.memory_conn; Examples.file_conn] =
  [Execute 1 (str "PRAGMA foreign_keys=ON"); Create_all 0] /\
  run [Examples.file_conn; Examples.memory_conn] =
  [Execute 3 (str "PRAGMA foreign_keys=ON")].
Proof.
  split.
  - exact (proj1 (setup_sqlite_first_connection
                    [Examples.memory_conn; Examples.file_conn])
             Examples.memory_conn [Examples.file_conn] eq_refl eq_refl).
  - exact (proj1 (setup_sqlite_first_connection
                    [Examples.file_conn; Examples.memory_conn])
             Examples.file_conn [Examples.memory_conn] eq_refl eq_refl).
Defined.

(** ** Witnesses for the codec and cache theorems *)


Lemma world0_reachable : reachable Examples.world0.
Proof.
  exists Examples.world0. split; [repeat split|constructor].
Qed.

Lemma flaky_world_reachable : reachable Examples.flaky_world.
Proof.
  exists Examples.flaky_world. split; [repeat split|constructor].
Qed.

Lemma get_engine_one_handle_per_loop_witness :
  ENGINES Examples.world1
    !! engine_key Examples.ctx_a None None Examples.world0 = Some 0%nat /\
  (forall k, k <> engine_key Examples.ctx_a None None Examples.world0 ->
             ENGINES Examples.world1 !! k <> Some 0%nat) /\
  (forall ctx', loop ctx' = loop Examples.ctx_a ->
                get_engine ctx' None None Examples.world1
                = (Ok 0%nat, Examples.world1)) /\
  (forall ctx' e' w3,
      loop ctx' <> loop Examples.ctx_a ->
      get_engine ctx' None None Examples.world1 = (Ok e', w3) ->
      e' <> 0%nat).
Proof.
  apply (get_engine_one_handle_per_loop Examples.ctx_a None None
           Examples.world0 Examples.world1 Examples.world1 0%nat).
  - exact world0_reachable.
  - reflexivity.
  - constructor.
Defined.

(** C4 as stated fails: tasks 10 and 11 of event loop 1 are two distinct
    execution contexts, and in a fresh process [get_engine()] returns the
    same handle to both. *)
Lemma get_engine_counterexample :
  ~ (forall (ctx ctx' : context) (url : option pystr) (echo_ : option bool)
            (w w1 w2 : world) (e e' : nat),
        reachable w ->
        ctx' <> ctx ->
        get_engine ctx url echo_ w = (Ok e, w1) ->
        get_engine ctx' url echo_ w1 = (Ok e', w2) ->
        e' <> e).
Proof.
  intros H.
  apply (H Examples.ctx_a Examples.ctx_a2 None None
           Examples.world0 Examples.world1 Examples.world1 0%nat 0%nat).
  - exact world0_reachable.
  - discriminate.
  - reflexivity.
  - reflexivity.
  - reflexivity.
Qed.

Lemma get_engine_failure_not_cached_witness :
  exists w1,
    get_engine Examples.ctx_a None None Examples.flaky_world
    = (Raise (ArgumentError (str "Could not parse SQLAlchemy URL")), w1) /\
    ENGINES w1 = ENGINES Examples.flaky_world /\
    exists e w2,
      get_engine Examples.ctx_a None None w1 = (Ok e, w2) /\
      ENGINES w2 !! engine_key Examples.ctx_a None None Examples.flaky_world
      = Some e.
Proof.
  destruct (get_engine_failure_not_cached Examples.ctx_a None None
              Examples.flaky_world
              (ArgumentError (str "Could not parse SQLAlchemy URL"))
              eq_refl eq_refl)
    as (w1 & Hraise & Hsame & _ & Hretry).
  exists w1. split; [exact Hraise|]. split; [exact Hsame|].
  exact (Hretry eq_refl).
Defined.


(** ** [None] passes through every codec *)

(** C10. For every dialect, each of the three codecs binds [None] to
    [None] and reads [None] back as [None]: the timestamp codec does not
    ask a missing value for its time zone, and the document codec does not
    validate it, whatever the declared type. *)
Theorem none_passes_through (d : dialect) (T : Pydantic.pydantic_type) :
  UUID.process_bind_param None d = Ok None /\
  UUID.process_result_value None d = Ok None /\
  Timestamp.process_bind_param None d = Ok None /\
  Timestamp.process_result_value None d = Ok None /\
  Pydantic.process_bind_param T Pydantic.PNone d = Ok Pydantic.PNone /\
  Pydantic.process_result_value T Pydantic.PNone d = Ok Pydantic.PNone.
Proof. repeat split. Qed.
